(** * wordle-vis: a Wordle-grid audio spectrum visualiser (src/wordle.c)

    Shallow embedding of [wordle.c] and proofs about its signal path:
    frequency-bin table, bin sampling, smoothing, row attenuation, bracket
    quantisation, and the capture loop with its resource handling.

    C [float] is IEEE-754 binary32 and C [double] is binary64; both are
    modelled with the standard library's [spec_float] and its correctly
    rounded operations (round to nearest, ties to even), evaluated without
    excess precision (FLT_EVAL_METHOD = 0). *)

From Stdlib Require Import ZArith Bool Lia.
From Stdlib Require Import Floats.SpecFloat.
From stdpp Require Import base list.

Local Open Scope Z_scope.

(** ** IEEE-754 formats of the C types *)

Definition float := spec_float.
Definition double := spec_float.

Module F32.
Definition prec := 24.
Definition emax := 128.
Definition valid (x : float) : bool := valid_binary prec emax x.
Definition mul : float -> float -> float := SFmul prec emax.
Definition div : float -> float -> float := SFdiv prec emax.
(** Conversion of a C [int] to [float]. *)
Definition of_int (z : Z) : float := binary_normalize prec emax z 0 false.
End F32.

Module F64.
Definition prec := 53.
Definition emax := 1024.
Definition valid (x : double) : bool := valid_binary prec emax x.
Definition mul : double -> double -> double := SFmul prec emax.
Definition add : double -> double -> double := SFadd prec emax.
Definition sub : double -> double -> double := SFsub prec emax.
Definition div : double -> double -> double := SFdiv prec emax.
Definition of_int (z : Z) : double := binary_normalize prec emax z 0 false.
End F64.

(** Implicit conversion [float] -> [double] (exact) and [double] -> [float]
    (rounding), as C performs them at calls and assignments. *)
Definition double_of_float (x : float) : double :=
  match x with
  | S754_finite s m e => binary_round F64.prec F64.emax s m e
  | _ => x
  end.

Definition float_of_double (x : double) : float :=
  match x with
  | S754_finite s m e => binary_round F32.prec F32.emax s m e
  | _ => x
  end.

(** Conversion [double] -> [uint32_t]: the fractional part is discarded. *)
Definition uint32_of_double (x : double) : Z :=
  match x with
  | S754_finite s m e => cond_Zopp s (Z.shiftl (Zpos m) e)
  | _ => 0
  end.

Definition is_nan (x : spec_float) : bool :=
  match x with S754_nan => true | _ => false end.

Definition is_zero (x : spec_float) : bool :=
  match x with S754_zero _ => true | _ => false end.

(** [fmax] of <math.h>, in the form C17 F.10.9.2 gives for it:
    [(isgreaterequal(x, y) || isnan(y)) ? x : y]. *)
Definition fmax (x y : double) : double :=
  if SFleb y x || is_nan y then x else y.

(** ** Configuration macros *)

Definition SECONDS := 10.
Definition SAMPLE_RATE := 44100.
Definition BUFSIZE := 1024.
(** [0.9f]: the binary32 nearest to 9/10. *)
Definition SMOOTHING : float := F32.div (F32.of_int 9) (F32.of_int 10).

Definition WORDLE_COLUMNS := 5.
Definition WORDLE_ROWS := 6.

(** [0.5]: the binary64 one half. *)
Definition DFT_SCALING : double := F64.div (F64.of_int 1) (F64.of_int 2).

(** The [double] literal [0.5] inside [DFT_MIDPOINT]. *)
Definition dbl_half : double := F64.div (F64.of_int 1) (F64.of_int 2).

(** [((BUFSIZE / 2) / WORDLE_COLUMNS) * (X + 0.5) * DFT_SCALING]: the
    quotient is an [int] division, the rest is [double] arithmetic. *)
Definition DFT_MIDPOINT (X : Z) : double :=
  F64.mul
    (F64.mul (F64.of_int (Z.quot (Z.quot BUFSIZE 2) WORDLE_COLUMNS))
             (F64.add (F64.of_int X) dbl_half))
    DFT_SCALING.

Definition aui32FreqBins : list Z :=
  [ uint32_of_double (DFT_MIDPOINT 0);
    uint32_of_double (DFT_MIDPOINT 1);
    uint32_of_double (DFT_MIDPOINT 2);
    uint32_of_double (DFT_MIDPOINT 3);
    uint32_of_double (DFT_MIDPOINT 4) ].

(** ** Display data *)

Record WORDLE_FRAME := { afAmplitudes : list float }.

Global Instance spec_float_inhabited : Inhabited spec_float :=
  populate (S754_zero false).

(** A [wchar_t] is a code point. *)
Definition wchar_t := Z.

(** A wide character constant of several characters.  Its value is
    implementation-defined (C17 6.4.4.4); GCC gives it the value of its
    last character. *)
Definition wide_char_constant (chars : list Z) : wchar_t := List.last chars 0.

(** The three entries are written in the file as wide character constants
    of three, four and four characters (the UTF-8 bytes of a black, a yellow
    and a green square, each byte stored as a character of its own). *)
Definition acPalette : list wchar_t :=
  [ wide_char_constant [0xE2; 0xAC; 0x203A];
    wide_char_constant [0xF0; 0x178; 0x178; 0xA8];
    wide_char_constant [0xF0; 0x178; 0x178; 0xA9] ].

Definition afAmplitudeBrackets : list float :=
  [ S754_zero false;                          (* 0.0f *)
    F32.div (F32.of_int 1) (F32.of_int 2);    (* 0.5f *)
    F32.of_int 1 ].                           (* 1.0f *)

Definition REMAP (X : float) : nat :=
  if SFltb X (afAmplitudeBrackets !!! 1%nat) then 0%nat
  else if SFltb X (afAmplitudeBrackets !!! 2%nat) then 1%nat
  else 2%nat.

(** ** Calls into the C library, PulseAudio and FFTW, in program order *)

Inductive text :=
  | TxtUsage        (* "usage: ./Wordle <audio source name> ..." *)
  | TxtNewFailed    (* "pa_simple_new() failed: %s\n" *)
  | TxtReadFailed   (* "pa_simple_read() failed: %s\n" *)
  | TxtClear        (* ESC "[2J" *)
  | TxtRowIndent    (* "\n\t\t" *)
  | TxtFooter.      (* "\n\n\n" *)

Inductive resource := psStream | psFFTWOutput | psFFTWPlan.

Inductive call :=
  | c_printf (t : text)
  | c_putwchar (c : wchar_t)
  | c_setlocale
  | c_pa_simple_new (ok : bool)
  | c_fftw_alloc_complex
  | c_fftw_plan_dft_r2c_1d
  | c_pa_simple_read (ok : bool)
  | c_fftw_execute
  | c_pa_simple_free
  | c_fftw_free
  | c_fftw_destroy_plan.

(** The resource a call hands out, and the resource a call gives back. *)
Definition acquired (c : call) : option resource :=
  match c with
  | c_pa_simple_new true => Some psStream
  | c_fftw_alloc_complex => Some psFFTWOutput
  | c_fftw_plan_dft_r2c_1d => Some psFFTWPlan
  | _ => None
  end.

Definition released (c : call) : option resource :=
  match c with
  | c_pa_simple_free => Some psStream
  | c_fftw_free => Some psFFTWOutput
  | c_fftw_destroy_plan => Some psFFTWPlan
  | _ => None
  end.

Definition acquisitions (tr : list call) : list resource := omap acquired tr.
Definition releases (tr : list call) : list resource := omap released tr.

Definition is_render (c : call) : bool :=
  match c with c_printf TxtFooter => true | _ => false end.

Definition is_report (c : call) : bool :=
  match c with c_printf TxtReadFailed => true | _ => false end.

(** Number of completed [printWordle] calls in a trace, and number of
    reported read failures. *)
Definition renders (tr : list call) : nat := length (filter is_render tr).
Definition reports (tr : list call) : nat := length (filter is_report tr).

(** Characters written by [putwchar], in order. *)
Definition cells (tr : list call) : list wchar_t :=
  omap (fun c => match c with c_putwchar w => Some w | _ => None end) tr.

(** ** printWordle *)

(** [(float)(1 + ui8Row) / WORDLE_ROWS] *)
Definition fAttenuation (ui8Row : nat) : float :=
  F32.div (F32.of_int (1 + Z.of_nat ui8Row)) (F32.of_int WORDLE_ROWS).

Definition printRow (psWordleFrame : WORDLE_FRAME) (ui8Row : nat) : list call :=
  c_printf TxtRowIndent ::
  map (fun ui8Column : nat =>
         c_putwchar
           (acPalette !!!
              REMAP (F32.mul (fAttenuation ui8Row)
                             (afAmplitudes psWordleFrame !!! ui8Column))))
      (seq 0 (Z.to_nat WORDLE_COLUMNS)).

Definition printWordle (psWordleFrame : WORDLE_FRAME) : list call :=
  concat (map (printRow psWordleFrame) (seq 0 (Z.to_nat WORDLE_ROWS)))
  ++ [c_printf TxtFooter].

(** ** FFTW buffers

    [fftw_complex] is [double[2]]: component 0 is the real part and
    component 1 the imaginary part.  A buffer is read by index; a pointer
    into it is the buffer with an element offset. *)

Definition fftw_complex := (double * double)%type.

Record complex_ptr := { buffer : nat -> fftw_complex; offset : nat }.

(** [&buf[i]] *)
Definition addr_of (buf : nat -> fftw_complex) (i : nat) : complex_ptr :=
  {| buffer := buf; offset := i |}.

(** [p[i]]: the [i]-th [fftw_complex] after the one [p] points to. *)
Definition subscript (p : complex_ptr) (i : nat) : fftw_complex :=
  buffer p (offset p + i)%nat.

(** [*a] for an array [a] of type [double[2]]: the array decays to a
    pointer to its first component, which is what is read. *)
Definition deref (a : fftw_complex) : double := fst a.

(** ** main *)

(** One pass of the smoothing assignment:
    [fmax(previous * SMOOTHING, new)], the product computed in [float], both
    arguments promoted to [double], the result stored back into a [float]. *)
Definition smooth (fPrevious fNew : float) : float :=
  float_of_double
    (fmax (double_of_float (F32.mul fPrevious SMOOTHING))
          (double_of_float fNew)).

Definition ui32NumReads : Z := Z.quot (SAMPLE_RATE * SECONDS) BUFSIZE.

(** [WORDLE_FRAME sWordleFrame = {};] *)
Definition sWordleFrame0 : WORDLE_FRAME :=
  {| afAmplitudes := replicate (Z.to_nat WORDLE_COLUMNS) (S754_zero false) |}.

Section Program.

(** [log10] of <math.h>, and the transform FFTW computes from the
    1024-sample input buffer when the plan is executed. *)
Variable log10 : double -> double.
Variable fftw_execute : list double -> nat -> fftw_complex.

(** What the [k]-th call of [pa_simple_read] delivers: a buffer of samples,
    or nothing when it returns a negative value. *)
Variable pa_simple_read : nat -> option (list float).

(** [log10(x0 * x0 + x1 * x1)] where [xi] is the source's [*sDFTSample[i]]
    and [sDFTSample = &psFFTWOutput[aui32FreqBins[ui8Column]]].  Postfix
    subscripting binds tighter than the unary star, so [xi] is the first
    component of the [i]-th [fftw_complex] counted from [sDFTSample]. *)
Definition fAmplitude (psFFTWOutput : nat -> fftw_complex) (ui8Column : nat) : float :=
  let sDFTSample :=
    addr_of psFFTWOutput (Z.to_nat (aui32FreqBins !!! ui8Column)) in
  float_of_double
    (log10
       (F64.add
          (F64.mul (deref (subscript sDFTSample 0)) (deref (subscript sDFTSample 0)))
          (F64.mul (deref (subscript sDFTSample 1)) (deref (subscript sDFTSample 1))))).

(** Body of the per-column loop of [main]. *)
Definition column_step (psFFTWOutput : nat -> fftw_complex)
    (sWordleFrame : WORDLE_FRAME) (ui8Column : nat) : WORDLE_FRAME :=
  {| afAmplitudes :=
       <[ ui8Column :=
            smooth (afAmplitudes sWordleFrame !!! ui8Column)
                   (fAmplitude psFFTWOutput ui8Column) ]>
         (afAmplitudes sWordleFrame) |}.

Definition populate (psFFTWOutput : nat -> fftw_complex)
    (sWordleFrame : WORDLE_FRAME) : WORDLE_FRAME :=
  fold_left (column_step psFFTWOutput)
            (seq 0 (Z.to_nat WORDLE_COLUMNS)) sWordleFrame.

(** The read loop: [n] iterations remain, [ui32ReadIndex] is the current
    one.  A failed read reports and leaves the loop. *)
Fixpoint capture_loop (n : nat) (ui32ReadIndex : nat)
    (sWordleFrame : WORDLE_FRAME) : list call * WORDLE_FRAME :=
  match n with
  | O => ([], sWordleFrame)
  | S n' =>
      match pa_simple_read ui32ReadIndex with
      | None =>
          ([c_pa_simple_read false; c_printf TxtReadFailed], sWordleFrame)
      | Some afPulseBuffer =>
          let adFFTWInput := map double_of_float afPulseBuffer in
          let psFFTWOutput := fftw_execute adFFTWInput in
          let sWordleFrame' := populate psFFTWOutput sWordleFrame in
          let '(tr, final) :=
            capture_loop n' (S ui32ReadIndex) sWordleFrame' in
          (c_pa_simple_read true :: c_fftw_execute :: c_printf TxtClear ::
             printWordle sWordleFrame' ++ tr,
           final)
      end
  end.

(** [main] with [n] configured reads: the calls it makes and its exit
    status.  [stream_ok] tells whether [pa_simple_new] returns a stream. *)
Definition main_reads (n : nat) (argc : Z) (stream_ok : bool) : list call * Z :=
  if argc <? 2 then ([c_printf TxtUsage], 1)
  else if negb stream_ok then
    ([c_setlocale; c_pa_simple_new false; c_printf TxtNewFailed], 1)
  else
    let '(tr, _) := capture_loop n 0 sWordleFrame0 in
    ([c_setlocale; c_pa_simple_new true;
      c_fftw_alloc_complex; c_fftw_plan_dft_r2c_1d]
     ++ tr
     ++ [c_pa_simple_free; c_fftw_free; c_fftw_destroy_plan],
     0).

Definition main (argc : Z) (stream_ok : bool) : list call * Z :=
  main_reads (Z.to_nat ui32NumReads) argc stream_ok.

(** The magnitude as the specification words it: base-10 logarithm of
    real^2 + imaginary^2 of the one spectrum entry at the mapped index. *)
Definition fAmplitude_claimed (psFFTWOutput : nat -> fftw_complex)
    (ui8Column : nat) : float :=
  let z := psFFTWOutput (Z.to_nat (aui32FreqBins !!! ui8Column)) in
  float_of_double
    (log10 (F64.add (F64.mul (fst z) (fst z)) (F64.mul (snd z) (snd z)))).

End Program.

(** ** What is assumed of the two library functions where a claim needs it *)

(** C17 F.10.3.8: [log10(+0)] is minus infinity. *)
Definition log10_pole (log10 : double -> double) : Prop :=
  log10 (S754_zero false) = S754_infinity true.

(** The transform of an all-zero input is zero in every component. *)
Definition fftw_silence (fftw : list double -> nat -> fftw_complex) : Prop :=
  forall x k, Forall (fun v => is_zero v = true) x ->
    is_zero (fst (fftw x k)) = true /\ is_zero (snd (fftw x k)) = true.

(** ** Executable instances of the two library functions

    They stand in for libm and FFTW where a statement has to be evaluated
    on a concrete run.  No accuracy is claimed for them. *)

(** [log10 2] to double precision. *)
Definition LOG10_2 : double :=
  F64.div (F64.of_int 3010299956639812) (F64.of_int 10000000000000000).

(** [floor(log2 x) * log10 2], with the special values of C17 F.10.3.8. *)
Definition log10_coarse (x : double) : double :=
  match x with
  | S754_nan => S754_nan
  | S754_zero _ => S754_infinity true
  | S754_infinity false => S754_infinity false
  | S754_infinity true => S754_nan
  | S754_finite true _ _ => S754_nan
  | S754_finite false m e =>
      F64.mul (F64.of_int (Zpos (digits2_pos m) + e - 1)) LOG10_2
  end.

Definition cmul (a b : fftw_complex) : fftw_complex :=
  (F64.sub (F64.mul (fst a) (fst b)) (F64.mul (snd a) (snd b)),
   F64.add (F64.mul (fst a) (snd b)) (F64.mul (snd a) (fst b))).

(** [cos (2 pi / 1024)] and [sin (2 pi / 1024)] to double precision. *)
Definition twiddle1 : fftw_complex :=
  (S754_finite false 9007029696760466 (-53),
   S754_finite false 7074193361797233 (-60)).

Fixpoint twiddle_table (n : nat) (w : fftw_complex) : list fftw_complex :=
  match n with
  | O => []
  | S n' => w :: twiddle_table n' (cmul w twiddle1)
  end.

Definition twiddles : list fftw_complex :=
  twiddle_table (Z.to_nat BUFSIZE) (F64.of_int 1, S754_zero false).

Definition dft_term (k j : nat) (v : double) (acc : fftw_complex) : fftw_complex :=
  let w := twiddles !!! ((j * k) mod Z.to_nat BUFSIZE)%nat in
  (F64.add (fst acc) (F64.mul v (fst w)),
   F64.sub (snd acc) (F64.mul v (snd w))).

Fixpoint dft_sum (k j : nat) (x : list double) (acc : fftw_complex) : fftw_complex :=
  match x with
  | [] => acc
  | v :: x' => dft_sum k (S j) x' (dft_term k j v acc)
  end.

(** The discrete Fourier sum, term by term. *)
Definition dft_direct (x : list double) (k : nat) : fftw_complex :=
  dft_sum k 0 x (S754_zero false, S754_zero false).

Definition finite_or_zero (x : double) : bool :=
  match x with S754_zero _ | S754_finite _ _ _ => true | _ => false end.

(** A buffer of silence, and the spectrum of a sine whose frequency is that
    of bin [b]: purely imaginary in bin [b], zero elsewhere. *)
Definition silent_buffer : list float :=
  replicate (Z.to_nat BUFSIZE) (S754_zero false).

Definition tone_in_bin (b : nat) : nat -> fftw_complex :=
  fun k => if (k =? b)%nat then (S754_zero false, F64.of_int (-1))
           else (S754_zero false, S754_zero false).

(** One window of a sine wave whose frequency is that of bin [b], sampled
    from the twiddle table. *)
Definition sine_window (b : nat) : list float :=
  map (fun j : nat =>
         float_of_double (snd (twiddles !!! ((j * b) mod Z.to_nat BUFSIZE)%nat)))
      (seq 0 (Z.to_nat BUFSIZE)).

Definition silent_spectrum : nat -> fftw_complex :=
  fun _ => (S754_zero false, S754_zero false).

(** Reads that deliver silence [k] times and then fail. *)
Definition reads_then_fail (k : nat) : nat -> option (list float) :=
  fun i => if (i <? k)%nat then Some silent_buffer else None.

(** ** The bin table for other configurations

    The integer part of [((N / 2) / C) * (X + 1/2) * 1/2] in exact
    arithmetic: what [DFT_MIDPOINT] denotes for window size [N] and [C]
    columns. *)
Definition midpoint_index (N C X : Z) : Z :=
  (Z.quot (Z.quot N 2) C * (2 * X + 1)) / 4.

(** ** Rounding to nearest even, read arithmetically

    [binary_round_aux] shifts the mantissa right bit by bit while tracking a
    round bit and a sticky bit.  The definitions below state the same result
    with division and remainder, which is the form the proofs use. *)

(** Nearest integer to [m / 2^n], ties to even. *)
Definition rne (m n : Z) : Z :=
  let q := m / 2 ^ n in
  let r := m mod 2 ^ n in
  if 2 * r <? 2 ^ n then q
  else if (2 * r =? 2 ^ n) && Z.even q then q
  else q + 1.

(** The shift register after [k] right shifts of [m]. *)
Definition shr_state (m k : Z) : shr_record :=
  {| shr_m := m / 2 ^ k;
     shr_r := 2 ^ k <=? 2 * (m mod 2 ^ k);
     shr_s := negb ((2 * (m mod 2 ^ k)) mod 2 ^ k =? 0) |}.

Section Format.

Variables prec emax : Z.

(** Renormalisation after rounding: a mantissa that reached [2^prec] is
    shifted once more. *)
Definition post (q E : Z) : Z * Z :=
  let n := Z.max 0 (fexp prec emax (Zdigits2 q + E) - E) in
  (q / 2 ^ n, E + n).

(** Mantissa and exponent of the rounding of [m * 2^e]. *)
Definition round_pos (m e : Z) : Z * Z :=
  let n := Z.max 0 (fexp prec emax (Zdigits2 m + e) - e) in
  post (rne m n) (e + n).

Definition mk_float (s : bool) (qe : Z * Z) : spec_float :=
  match fst qe with
  | Z0 => S754_zero s
  | Zpos q => if snd qe <=? emax - prec then S754_finite s q (snd qe)
              else S754_infinity s
  | Zneg _ => S754_nan
  end.

(** The exponent is not above the one the format assigns to the value. *)
Definition aligned (m e : Z) : Prop := e <= fexp prec emax (Zdigits2 m + e).

End Format.

(** [m1 * 2^e1 <= m2 * 2^e2], over the integers. *)
Definition val_le (m1 e1 m2 e2 : Z) : Prop :=
  m1 * 2 ^ (e1 - Z.min e1 e2) <= m2 * 2 ^ (e2 - Z.min e1 e2).

(** Order of [SFcompare] on mantissa/exponent pairs of non-negative
    results. *)
Definition lex_le (a b : Z * Z) : Prop :=
  fst a = 0 \/
  (0 < fst a /\ 0 < fst b /\
   (snd a < snd b \/ (snd a = snd b /\ fst a <= fst b))).

Definition lex_compare (e1 : Z) (m1 : positive) (e2 : Z) (m2 : positive) : comparison :=
  match Z.compare e1 e2 with
  | Lt => Lt
  | Gt => Gt
  | Eq => Pos.compare_cont Eq m1 m2
  end.

(** ** Further observations of a trace *)

Definition is_read (c : call) : bool :=
  match c with c_pa_simple_read _ => true | _ => false end.

Definition is_execute (c : call) : bool :=
  match c with c_fftw_execute => true | _ => false end.

(** Number of [pa_simple_read] calls and of [fftw_execute] calls. *)
Definition reads_attempted (tr : list call) : nat := length (filter is_read tr).
Definition executes (tr : list call) : nat := length (filter is_execute tr).

(** The palette index [printWordle] uses for row [r] and column [c]. *)
Definition cell_index (psWordleFrame : WORDLE_FRAME) (r c : nat) : nat :=
  REMAP (F32.mul (fAttenuation r) (afAmplitudes psWordleFrame !!! c)).

(** Amplitudes that are neither negative nor NaN. *)
Definition nonneg (a : float) : Prop := SFleb (S754_zero false) a = true.


(** The grid as [printWordle] writes it: row after row, column after
    column. *)
Definition grid (psWordleFrame : WORDLE_FRAME) : list wchar_t :=
  concat (map (fun r => map (fun c => acPalette !!! cell_index psWordleFrame r c)
                            (seq 0 (Z.to_nat WORDLE_COLUMNS)))
              (seq 0 (Z.to_nat WORDLE_ROWS))).

(** The spectrum of a cosine whose frequency is that of bin [b], with
    amplitude 1: [BUFSIZE / 2] in the real part of entry [b]. *)
Definition cosine_in_bin (b : nat) : nat -> fftw_complex :=
  fun k => if (k =? b)%nat then (F64.of_int (Z.quot BUFSIZE 2), S754_zero false)
           else (S754_zero false, S754_zero false).

(** The state of a column after [n] cycles that all deliver the magnitude
    [m], from the state [s]. *)
Definition settle (m s : float) (n : nat) : float :=
  Nat.iter n (fun st => smooth st m) s.

(** A number that grows with the value of a positive finite canonical
    [float]; 0 for every other value. *)
Definition rank (x : float) : nat :=
  match x with
  | S754_finite false m e => Z.to_nat ((e + 149) * 2 ^ 24 + Zpos m)
  | _ => 0%nat
  end.

(** * Proofs *)

(** ** Digits, shifts and rounding *)

(** A mantissa of [d] digits lies in [[2^(d-1), 2^d)]. *)
Lemma digits2_pos_bounds (p : positive) :
  2 ^ (Zpos (digits2_pos p) - 1) <= Zpos p < 2 ^ Zpos (digits2_pos p).
Proof.
  induction p as [p IH | p IH |]; simpl digits2_pos.
  - rewrite Pos2Z.inj_succ, Z.pow_succ_r, (Pos2Z.inj_xI p) by lia.
    replace (Z.succ (Zpos (digits2_pos p)) - 1)
      with (Z.succ (Zpos (digits2_pos p) - 1)) by lia.
    rewrite Z.pow_succ_r by lia.
    generalize dependent (2 ^ (Zpos (digits2_pos p) - 1)).
    generalize (2 ^ Zpos (digits2_pos p)). lia.
  - rewrite Pos2Z.inj_succ, Z.pow_succ_r, (Pos2Z.inj_xO p) by lia.
    replace (Z.succ (Zpos (digits2_pos p)) - 1)
      with (Z.succ (Zpos (digits2_pos p) - 1)) by lia.
    rewrite Z.pow_succ_r by lia.
    generalize dependent (2 ^ (Zpos (digits2_pos p) - 1)).
    generalize (2 ^ Zpos (digits2_pos p)). lia.
  - simpl. lia.
Qed.

(** One right shift: halve, remember the bit shifted out, accumulate the
    sticky bit. *)
Lemma shr_1_nonneg m r s :
  0 <= m ->
  shr_1 {| shr_m := m; shr_r := r; shr_s := s |} =
  {| shr_m := m / 2; shr_r := Z.odd m; shr_s := r || s |}.
Proof.
  intros Hm. rewrite <- Z.div2_div.
  destruct m as [| [p | p |] |]; try reflexivity. lia.
Qed.

Lemma shr_state_0 m : shr_state m 0 = {| shr_m := m; shr_r := false; shr_s := false |}.
Proof.
  unfold shr_state. rewrite Z.pow_0_r, Z.div_1_r, Z.mod_1_r. reflexivity.
Qed.

(** [shr_state m k] is what [k] shifts leave of [m]. *)
Lemma shr_1_state m k :
  0 <= m -> 0 <= k -> shr_1 (shr_state m k) = shr_state m (k + 1).
Proof.
  intros Hm Hk. unfold shr_state.
  assert (Hp : 0 < 2 ^ k) by (apply Z.pow_pos_nonneg; lia).
  rewrite shr_1_nonneg by (apply Z.div_pos; lia).
  rewrite Z.pow_add_r, Z.pow_1_r by lia.
  set (P := 2 ^ k) in *.
  pose proof (Z.div_mod m P ltac:(lia)) as Hdm.
  pose proof (Z.mod_pos_bound m P Hp) as Hb.
  set (q := m / P) in *. set (r := m mod P) in *.
  pose proof (Z.div_mod q 2 ltac:(lia)) as Hq2.
  pose proof (Z.mod_pos_bound q 2 ltac:(lia)) as Hb2.
  assert (Hdiv : m / (P * 2) = q / 2).
  { symmetry. apply Z.div_unique with (r := (q mod 2) * P + r); nia. }
  assert (Hmod : m mod (P * 2) = (q mod 2) * P + r).
  { symmetry. apply Z.mod_unique with (q := q / 2); nia. }
  rewrite Hdiv, Hmod. f_equal.
  - pose proof (Zmod_odd q) as Hodd.
    destruct (Z.odd q); rewrite Hodd; symmetry.
    + apply Z.leb_le. nia.
    + apply Z.leb_gt. nia.
  - assert (H2r : (2 * ((q mod 2) * P + r)) mod (P * 2) = 2 * r).
    { symmetry. apply Z.mod_unique with (q := q mod 2); nia. }
    rewrite H2r.
    destruct (Z.eq_dec r 0) as [-> | Hr].
    + rewrite Z.mul_0_r, Z.mod_0_l by lia. simpl.
      replace (P <=? 0) with false by (symmetry; apply Z.leb_gt; lia). reflexivity.
    + replace (2 * r =? 0) with false by (symmetry; apply Z.eqb_neq; lia). simpl.
      destruct (Z.leb_spec P (2 * r)) as [Hle | Hlt]; [reflexivity |].
      simpl. rewrite Z.mod_small by lia.
      replace (2 * r =? 0) with false by (symmetry; apply Z.eqb_neq; lia). reflexivity.
Qed.

Lemma iter_shr_1_state (p : positive) : forall m k,
  0 <= m -> 0 <= k ->
  SpecFloat.iter_pos shr_1 p (shr_state m k) = shr_state m (k + Zpos p).
Proof.
  induction p as [p IH | p IH |]; intros m k Hm Hk; cbn [SpecFloat.iter_pos].
  - rewrite shr_1_state, !IH by lia. f_equal. lia.
  - rewrite !IH by lia. f_equal. lia.
  - apply shr_1_state; assumption.
Qed.

Lemma shr_state_shr m e n :
  0 <= m ->
  shr {| shr_m := m; shr_r := false; shr_s := false |} e n =
  (shr_state m (Z.max 0 n), e + Z.max 0 n).
Proof.
  intros Hm. destruct n as [| p | p]; simpl shr.
  - rewrite shr_state_0, Z.add_0_r. reflexivity.
  - rewrite <- shr_state_0, iter_shr_1_state by lia. reflexivity.
  - rewrite shr_state_0, Z.add_0_r. reflexivity.
Qed.

(** Rounding on the round and sticky bits is [rne]. *)
Lemma round_shr_state m k :
  0 <= m -> 0 <= k ->
  round_nearest_even (shr_m (shr_state m k)) (loc_of_shr_record (shr_state m k))
  = rne m k.
Proof.
  intros Hm Hk. unfold shr_state, rne. simpl.
  assert (Hp : 0 < 2 ^ k) by (apply Z.pow_pos_nonneg; lia).
  set (P := 2 ^ k) in *.
  pose proof (Z.mod_pos_bound m P Hp) as Hb.
  set (q := m / P). set (r := m mod P) in *.
  destruct (Z.leb_spec P (2 * r)) as [Hle | Hlt].
  - replace (2 * r <? P) with false by (symmetry; apply Z.ltb_ge; lia).
    destruct (Z.eq_dec (2 * r) P) as [He | Hne].
    + rewrite He, Z.mod_same by lia. rewrite !Z.eqb_refl. simpl.
      destruct (Z.even q); reflexivity.
    + replace (2 * r =? P) with false by (symmetry; apply Z.eqb_neq; lia).
      assert (H2 : (2 * r) mod P = 2 * r - P).
      { symmetry. apply Z.mod_unique with (q := 1); lia. }
      rewrite H2.
      replace (2 * r - P =? 0) with false by (symmetry; apply Z.eqb_neq; lia).
      reflexivity.
  - replace (2 * r <? P) with true by (symmetry; apply Z.ltb_lt; lia).
    destruct (negb _); reflexivity.
Qed.

(** ** Nearest-even rounding of a quotient by a power of two *)

Lemma pow2_pos k : 0 <= k -> 0 < 2 ^ k.
Proof. intros. apply Z.pow_pos_nonneg; lia. Qed.

Lemma rne_cases m n :
  0 <= n ->
  let P := 2 ^ n in
  (rne m n = m / P /\ 2 * (m mod P) <= P) \/
  (rne m n = m / P + 1 /\ P <= 2 * (m mod P)).
Proof.
  intros Hn P. unfold rne. fold P.
  destruct (Z.ltb_spec (2 * (m mod P)) P) as [Hlt | Hge].
  - left. split; [reflexivity | lia].
  - destruct (Z.eqb_spec (2 * (m mod P)) P) as [He | Hne]; simpl.
    + destruct (Z.even (m / P)).
      * left. split; [reflexivity | lia].
      * right. split; [reflexivity | lia].
    + right. split; [reflexivity | lia].
Qed.

Lemma rne_nonneg m n : 0 <= m -> 0 <= n -> 0 <= rne m n.
Proof.
  intros Hm Hn. pose proof (pow2_pos n Hn) as HP.
  pose proof (Z.div_pos m (2 ^ n) Hm HP).
  destruct (rne_cases m n Hn) as [[? ?] | [? ?]]; lia.
Qed.

Lemma rne_exact a n : 0 <= n -> rne (a * 2 ^ n) n = a.
Proof.
  intros Hn. pose proof (pow2_pos n Hn) as HP. unfold rne.
  rewrite Z.div_mul, Z.mod_mul by lia.
  replace (2 * 0 <? 2 ^ n) with true by (symmetry; apply Z.ltb_lt; lia).
  reflexivity.
Qed.

Lemma rne_0 m : rne m 0 = m.
Proof. rewrite <- (rne_exact m 0) at 2 by lia. f_equal. rewrite Z.pow_0_r. lia. Qed.

Lemma rne_mono m1 m2 n :
  0 <= n -> m1 <= m2 -> rne m1 n <= rne m2 n.
Proof.
  intros Hn Hle. pose proof (pow2_pos n Hn) as HP.
  pose proof (Z.div_le_mono m1 m2 (2 ^ n) HP Hle) as Hq.
  destruct (Z.eq_dec (m1 / 2 ^ n) (m2 / 2 ^ n)) as [Heq | Hne].
  - assert (Hr : m1 mod 2 ^ n <= m2 mod 2 ^ n).
    { pose proof (Z.div_mod m1 (2 ^ n) ltac:(lia)).
      pose proof (Z.div_mod m2 (2 ^ n) ltac:(lia)). nia. }
    unfold rne. rewrite Heq.
    set (P := 2 ^ n) in *. set (q := m2 / P) in *.
    set (r1 := m1 mod P) in *. set (r2 := m2 mod P) in *.
    destruct (Z.ltb_spec (2 * r1) P), (Z.ltb_spec (2 * r2) P),
             (Z.eqb_spec (2 * r1) P), (Z.eqb_spec (2 * r2) P);
      simpl; destruct (Z.even q); lia.
  - destruct (rne_cases m1 n Hn) as [[-> _] | [-> _]],
             (rne_cases m2 n Hn) as [[? ?] | [? ?]]; lia.
Qed.

Lemma rne_scale m n k :
  0 <= n -> 0 <= k -> rne (m * 2 ^ k) (n + k) = rne m n.
Proof.
  intros Hn Hk. pose proof (pow2_pos n Hn) as HP. pose proof (pow2_pos k Hk) as HK.
  unfold rne. rewrite Z.pow_add_r by lia.
  rewrite Z.div_mul_cancel_r by lia.
  rewrite Z.mul_mod_distr_r by lia.
  set (P := 2 ^ n) in *. set (K := 2 ^ k) in *.
  set (q := m / P). set (r := m mod P).
  replace (2 * (r * K) <? P * K) with (2 * r <? P).
  2:{ destruct (Z.ltb_spec (2 * r) P); symmetry; [apply Z.ltb_lt | apply Z.ltb_ge]; nia. }
  replace (2 * (r * K) =? P * K) with (2 * r =? P).
  2:{ destruct (Z.eqb_spec (2 * r) P); symmetry; [apply Z.eqb_eq | apply Z.eqb_neq]; nia. }
  reflexivity.
Qed.

Lemma rne_le m a n : 0 <= n -> m <= a * 2 ^ n -> rne m n <= a.
Proof. intros Hn H. rewrite <- (rne_exact a n Hn). apply rne_mono; assumption. Qed.

Lemma rne_ge m a n : 0 <= n -> a * 2 ^ n <= m -> a <= rne m n.
Proof. intros Hn H. rewrite <- (rne_exact a n Hn). apply rne_mono; assumption. Qed.

(** ** Number of binary digits *)

Lemma Zdigits2_pos_bounds m :
  0 < m -> 0 < Zdigits2 m /\ 2 ^ (Zdigits2 m - 1) <= m < 2 ^ Zdigits2 m.
Proof.
  destruct m as [| p | p]; try lia. intros _. simpl Zdigits2.
  split; [lia | apply digits2_pos_bounds].
Qed.

Lemma Zdigits2_nonneg m : 0 <= Zdigits2 m.
Proof. destruct m; simpl; lia. Qed.

Lemma Zdigits2_ub m k : 0 <= k -> m < 2 ^ k -> 0 <= m -> Zdigits2 m <= k.
Proof.
  intros Hk Hlt Hm. destruct (Z.eq_dec m 0) as [-> | Hne]; [simpl; lia |].
  destruct (Zdigits2_pos_bounds m ltac:(lia)) as [Hd [Hlo _]].
  destruct (Z.le_gt_cases (Zdigits2 m) k) as [|Hgt]; [assumption | exfalso].
  assert (2 ^ k <= 2 ^ (Zdigits2 m - 1)) by (apply Z.pow_le_mono_r; lia). lia.
Qed.

Lemma Zdigits2_lb m k : 0 <= k -> 2 ^ k <= m -> k < Zdigits2 m.
Proof.
  intros Hk Hle. pose proof (pow2_pos k Hk).
  destruct (Zdigits2_pos_bounds m ltac:(lia)) as [Hd [_ Hhi]].
  destruct (Z.lt_ge_cases k (Zdigits2 m)) as [|Hge]; [assumption | exfalso].
  assert (2 ^ Zdigits2 m <= 2 ^ k) by (apply Z.pow_le_mono_r; lia). lia.
Qed.

Lemma Zdigits2_mono a b : 0 <= a <= b -> Zdigits2 a <= Zdigits2 b.
Proof.
  intros [Ha Hab]. destruct (Z.eq_dec b 0) as [-> | Hb].
  - assert (a = 0) as -> by lia. lia.
  - destruct (Zdigits2_pos_bounds b ltac:(lia)) as [Hd [_ Hhi]].
    apply Zdigits2_ub; lia.
Qed.

Lemma Zdigits2_shift m k :
  0 < m -> 0 <= k -> Zdigits2 (m * 2 ^ k) = Zdigits2 m + k.
Proof.
  intros Hm Hk. pose proof (pow2_pos k Hk) as HK.
  destruct (Zdigits2_pos_bounds m Hm) as [Hd [Hlo Hhi]].
  apply Z.le_antisymm.
  - apply Zdigits2_ub; [lia | | nia].
    rewrite Z.pow_add_r by lia. nia.
  - enough (Zdigits2 m + k - 1 < Zdigits2 (m * 2 ^ k)) by lia.
    apply Zdigits2_lb; [lia |].
    replace (Zdigits2 m + k - 1) with (Zdigits2 m - 1 + k) by lia.
    rewrite Z.pow_add_r by lia. nia.
Qed.

Lemma Zdigits2_div m k :
  0 < m -> 0 <= k < Zdigits2 m -> Zdigits2 (m / 2 ^ k) = Zdigits2 m - k.
Proof.
  intros Hm Hk. pose proof (pow2_pos k ltac:(lia)) as HK.
  destruct (Zdigits2_pos_bounds m Hm) as [Hd [Hlo Hhi]].
  assert (Hlo' : 2 ^ (Zdigits2 m - 1 - k) <= m / 2 ^ k).
  { apply Z.div_le_lower_bound; [lia |].
    rewrite <- Z.pow_add_r by lia.
    replace (k + (Zdigits2 m - 1 - k)) with (Zdigits2 m - 1) by lia. lia. }
  assert (Hhi' : m / 2 ^ k < 2 ^ (Zdigits2 m - k)).
  { apply Z.div_lt_upper_bound; [lia |].
    rewrite <- Z.pow_add_r by lia.
    replace (k + (Zdigits2 m - k)) with (Zdigits2 m) by lia. lia. }
  apply Z.le_antisymm.
  - apply Zdigits2_ub; [lia | lia |]. apply Z.div_pos; lia.
  - enough (Zdigits2 m - k - 1 < Zdigits2 (m / 2 ^ k)) by lia.
    apply Zdigits2_lb; [lia |].
    replace (Zdigits2 m - k - 1) with (Zdigits2 m - 1 - k) by lia. lia.
Qed.

Section FormatFacts.
Variables prec emax : Z.
Hypothesis Hprec : 0 < prec.

Local Abbreviation fexp := (SpecFloat.fexp prec emax).
Local Abbreviation emin := (SpecFloat.emin prec emax).

Lemma fexp_mono a b : a <= b -> fexp a <= fexp b.
Proof. unfold SpecFloat.fexp. lia. Qed.

Lemma fexp_ge_emin a : emin <= fexp a.
Proof. unfold SpecFloat.fexp. lia. Qed.

Lemma fexp_cases a : (fexp a = a - prec /\ emin <= a - prec) \/ (fexp a = emin /\ a - prec <= emin).
Proof. unfold SpecFloat.fexp. lia. Qed.

(** The standard library's rounding of an exact product, arithmetically. *)
Lemma binary_round_aux_eq s (m : positive) e :
  binary_round_aux prec emax s (Zpos m) e loc_Exact
  = mk_float prec emax s (round_pos prec emax (Zpos m) e).
Proof.
  unfold binary_round_aux, shr_fexp, round_pos, post, mk_float.
  cbn [shr_record_of_loc].
  rewrite shr_state_shr by lia.
  rewrite round_shr_state by lia.
  rewrite shr_state_shr by (apply rne_nonneg; lia).
  reflexivity.
Qed.

Lemma post_pos q E :
  emin <= E -> 0 < q -> 0 < fst (post prec emax q E).
Proof.
  intros HE Hq. unfold post. cbn [fst].
  destruct (Zdigits2_pos_bounds q Hq) as [Hd [Hlo Hhi]].
  set (n := Z.max 0 (fexp (Zdigits2 q + E) - E)).
  assert (Hn : 0 <= n <= Zdigits2 q - 1).
  { unfold n. destruct (fexp_cases (Zdigits2 q + E)) as [[? ?] | [? ?]]; lia. }
  apply Z.div_str_pos. split; [apply pow2_pos; lia |].
  etransitivity; [| exact Hlo]. apply Z.pow_le_mono_r; lia.
Qed.

Lemma post_mono q1 q2 E :
  emin <= E -> 0 <= q1 <= q2 -> lex_le (post prec emax q1 E) (post prec emax q2 E).
Proof.
  intros HE [H1 H12].
  destruct (Z.eq_dec q1 0) as [-> | Hne].
  { left. unfold post. cbn [fst]. apply Z.div_0_l.
    pose proof (pow2_pos (Z.max 0 (fexp (Zdigits2 0 + E) - E)) ltac:(lia)). lia. }
  right.
  pose proof (post_pos q1 E HE ltac:(lia)) as Hp1.
  pose proof (post_pos q2 E HE ltac:(lia)) as Hp2.
  split; [assumption | split; [assumption |]].
  unfold post in *. cbn [fst snd] in *.
  pose proof (Zdigits2_mono q1 q2 ltac:(lia)) as Hd.
  pose proof (fexp_mono (Zdigits2 q1 + E) (Zdigits2 q2 + E) ltac:(lia)) as Hf.
  set (n1 := Z.max 0 (fexp (Zdigits2 q1 + E) - E)) in *.
  set (n2 := Z.max 0 (fexp (Zdigits2 q2 + E) - E)) in *.
  destruct (Z.eq_dec n1 n2) as [Hn | Hn].
  - right. split; [lia |]. rewrite Hn.
    apply Z.div_le_mono; [apply pow2_pos; lia | lia].
  - left. lia.
Qed.

Lemma val_le_digits m1 e1 m2 e2 :
  0 < m1 -> 0 < m2 -> val_le m1 e1 m2 e2 ->
  Zdigits2 m1 + e1 <= Zdigits2 m2 + e2.
Proof.
  intros H1 H2 Hv. unfold val_le in Hv.
  set (b := Z.min e1 e2) in *.
  destruct (Zdigits2_pos_bounds m1 H1) as [Hd1 [Hlo1 _]].
  destruct (Zdigits2_pos_bounds m2 H2) as [Hd2 [_ Hhi2]].
  pose proof (pow2_pos (e1 - b) ltac:(lia)) as Hp1.
  pose proof (pow2_pos (e2 - b) ltac:(lia)) as Hp2.
  assert (Hlt : 2 ^ (Zdigits2 m1 - 1 + (e1 - b)) < 2 ^ (Zdigits2 m2 + (e2 - b))).
  { rewrite !Z.pow_add_r by lia. nia. }
  apply Z.pow_lt_mono_r_iff in Hlt; lia.
Qed.

Lemma rne_aligned_bounds m e :
  0 < m -> aligned prec emax m e ->
  let E := fexp (Zdigits2 m + e) in
  let q := rne m (E - e) in
  0 <= q <= 2 ^ prec /\ (emin < E -> 2 ^ (prec - 1) <= q).
Proof.
  intros Hm Ha E q. unfold aligned in Ha. fold E in Ha.
  destruct (Zdigits2_pos_bounds m Hm) as [Hd [Hlo Hhi]].
  assert (HEd : Zdigits2 m + e - prec <= E).
  { unfold E. destruct (fexp_cases (Zdigits2 m + e)) as [[? ?] | [? ?]]; lia. }
  split; [split |].
  - apply rne_nonneg; lia.
  - apply rne_le; [lia |].
    rewrite <- Z.pow_add_r by lia.
    etransitivity; [apply Z.lt_le_incl, Hhi |].
    apply Z.pow_le_mono_r; lia.
  - intros HE.
    assert (HEeq : E = Zdigits2 m + e - prec).
    { unfold E in *. destruct (fexp_cases (Zdigits2 m + e)) as [[? ?] | [? ?]]; lia. }
    apply rne_ge; [lia |].
    rewrite <- Z.pow_add_r by lia.
    etransitivity; [| exact Hlo]. apply Z.pow_le_mono_r; lia.
Qed.

(** Rounding is monotone: a smaller value never rounds to a larger float. *)
Lemma round_pos_mono m1 e1 m2 e2 :
  0 < m1 -> 0 < m2 -> aligned prec emax m1 e1 -> aligned prec emax m2 e2 ->
  val_le m1 e1 m2 e2 ->
  lex_le (round_pos prec emax m1 e1) (round_pos prec emax m2 e2).
Proof.
  intros H1 H2 Ha1 Ha2 Hv.
  pose proof (val_le_digits _ _ _ _ H1 H2 Hv) as Hd.
  pose proof (fexp_mono _ _ Hd) as HE.
  pose proof (rne_aligned_bounds m1 e1 H1 Ha1) as [Hq1 _].
  pose proof (rne_aligned_bounds m2 e2 H2 Ha2) as [Hq2 Hq2n].
  unfold round_pos. unfold aligned in Ha1, Ha2.
  set (E1 := fexp (Zdigits2 m1 + e1)) in *.
  set (E2 := fexp (Zdigits2 m2 + e2)) in *.
  rewrite !Z.max_r by lia.
  replace (e1 + (E1 - e1)) with E1 by lia.
  replace (e2 + (E2 - e2)) with E2 by lia.
  set (q1 := rne m1 (E1 - e1)) in *.
  set (q2 := rne m2 (E2 - e2)) in *.
  pose proof (fexp_ge_emin (Zdigits2 m1 + e1)) as Hm1. fold E1 in Hm1.
  destruct (Z.eq_dec E1 E2) as [Heq | Hne].
  - (* same grid *)
    rewrite <- Heq. apply post_mono; [lia |]. split; [lia |].
    unfold q1, q2. rewrite <- Heq.
    unfold val_le in Hv. set (b := Z.min e1 e2) in *.
    rewrite <- (rne_scale m1 (E1 - e1) (e1 - b)) by lia.
    rewrite <- (rne_scale m2 (E1 - e2) (e2 - b)) by lia.
    replace (E1 - e1 + (e1 - b)) with (E1 - b) by lia.
    replace (E1 - e2 + (e2 - b)) with (E1 - b) by lia.
    apply rne_mono; lia.
  - (* the second operand lies in a higher binade *)
    assert (Hlt : E1 < E2) by lia.
    specialize (Hq2n ltac:(lia)).
    destruct (Z.eq_dec q1 0) as [Hz | Hnz].
    { left. unfold post. cbn [fst]. rewrite Hz. apply Z.div_0_l.
      pose proof (pow2_pos (Z.max 0 (fexp (Zdigits2 0 + E1) - E1)) ltac:(lia)). lia. }
    right.
    pose proof (post_pos q1 E1 ltac:(lia) ltac:(lia)) as Hp1.
    pose proof (pow2_pos (prec - 1) ltac:(lia)) as Hpp.
    pose proof (post_pos q2 E2 ltac:(lia) ltac:(lia)) as Hp2.
    split; [assumption | split; [assumption |]].
    unfold post in *. cbn [fst snd] in *.
    (* second *)
    assert (Hdq2 : prec <= Zdigits2 q2).
    { enough (prec - 1 < Zdigits2 q2) by lia. apply Zdigits2_lb; lia. }
    set (n2 := Z.max 0 (fexp (Zdigits2 q2 + E2) - E2)) in *.
    assert (Hn2 : n2 = Zdigits2 q2 - prec).
    { unfold n2. destruct (fexp_cases (Zdigits2 q2 + E2)) as [[? ?] | [? ?]]; lia. }
    assert (Hq2' : 2 ^ (prec - 1) <= q2 / 2 ^ n2).
    { destruct (Zdigits2_pos_bounds q2 ltac:(lia)) as [_ [Hlo _]].
      apply Z.div_le_lower_bound; [apply pow2_pos; lia |].
      rewrite <- Z.pow_add_r by lia.
      replace (n2 + (prec - 1)) with (Zdigits2 q2 - 1) by lia. exact Hlo. }
    (* first *)
    assert (Hdq1 : Zdigits2 q1 <= prec + 1).
    { apply Zdigits2_ub; [lia | | lia].
      rewrite Z.pow_add_r, Z.pow_1_r by lia. lia. }
    set (n1 := Z.max 0 (fexp (Zdigits2 q1 + E1) - E1)) in *.
    assert (Hn1 : 0 <= n1 <= 1).
    { unfold n1. destruct (fexp_cases (Zdigits2 q1 + E1)) as [[? ?] | [? ?]]; lia. }
    destruct (Z.eq_dec (E1 + n1) (E2 + n2)) as [Hee | Hee]; [right | left; lia].
    split; [assumption |].
    assert (n1 = 1) as -> by lia.
    rewrite Z.pow_1_r.
    etransitivity; [| exact Hq2'].
    apply Z.div_le_upper_bound; [lia |].
    replace (2 * 2 ^ (prec - 1)) with (2 ^ prec); [lia |].
    replace prec with (prec - 1 + 1) at 1 by lia.
    rewrite Z.pow_add_r, Z.pow_1_r by lia. lia.
Qed.

(** The result of rounding is canonical in the format. *)
Lemma round_pos_canonical m e :
  0 < m -> aligned prec emax m e ->
  0 < fst (round_pos prec emax m e) ->
  fexp (Zdigits2 (fst (round_pos prec emax m e)) + snd (round_pos prec emax m e))
  = snd (round_pos prec emax m e).
Proof.
  intros Hm Ha. pose proof (rne_aligned_bounds m e Hm Ha) as [Hq Hqn].
  unfold round_pos, aligned in *.
  set (E := fexp (Zdigits2 m + e)) in *.
  rewrite !Z.max_r by lia.
  replace (e + (E - e)) with E by lia.
  set (q := rne m (E - e)) in *.
  pose proof (fexp_ge_emin (Zdigits2 m + e)) as HmE. fold E in HmE.
  unfold post. cbn [fst snd].
  set (n := Z.max 0 (fexp (Zdigits2 q + E) - E)).
  intros Hpos.
  assert (Hq0 : 0 < q).
  { destruct (Z.eq_dec q 0) as [Hz | Hz]; [| lia].
    rewrite Hz, Z.div_0_l in Hpos; [lia |].
    pose proof (pow2_pos n ltac:(lia)). lia. }
  destruct (Zdigits2_pos_bounds q Hq0) as [Hd [Hlo Hhi]].
  assert (Hn : 0 <= n < Zdigits2 q).
  { unfold n. destruct (fexp_cases (Zdigits2 q + E)) as [[? ?] | [? ?]]; lia. }
  rewrite Zdigits2_div by lia.
  replace (Zdigits2 q - n + (E + n)) with (Zdigits2 q + E) by lia.
  destruct (Z.le_gt_cases (fexp (Zdigits2 q + E)) E) as [Hle | Hgt]; [| lia].
  assert (n = 0) as -> by lia.
  enough (E <= fexp (Zdigits2 q + E)) by lia.
  destruct (Z.eq_dec E emin) as [-> | HneE]; [apply fexp_ge_emin |].
  specialize (Hqn ltac:(lia)).
  assert (prec - 1 < Zdigits2 q) by (apply Zdigits2_lb; lia).
  destruct (fexp_cases (Zdigits2 q + E)) as [[? ?] | [? ?]]; lia.
Qed.

Lemma round_pos_nonneg m e : 0 <= m -> 0 <= fst (round_pos prec emax m e).
Proof.
  intros Hm. unfold round_pos, post. cbn [fst].
  apply Z.div_pos; [apply rne_nonneg; lia | apply pow2_pos; lia].
Qed.

Lemma mk_float_valid s m e :
  0 < m -> aligned prec emax m e ->
  valid_binary prec emax (mk_float prec emax s (round_pos prec emax m e)) = true.
Proof.
  intros Hm Ha. pose proof (round_pos_canonical m e Hm Ha) as Hc.
  unfold mk_float. destruct (fst (round_pos prec emax m e)) as [| q | q] eqn:Hq;
    [reflexivity | | reflexivity].
  destruct (Z.leb_spec (snd (round_pos prec emax m e)) (emax - prec)) as [Hle | Hgt];
    [| reflexivity].
  cbn [valid_binary]. unfold bounded, canonical_mantissa.
  apply andb_true_intro. split.
  - apply Z.eqb_eq. apply Hc. lia.
  - apply Z.leb_le. exact Hle.
Qed.

Lemma mk_float_le a b :
  0 <= fst a -> 0 <= fst b -> lex_le a b ->
  SFleb (mk_float prec emax false a) (mk_float prec emax false b) = true.
Proof.
  destruct a as [qa ea], b as [qb eb]. unfold lex_le, mk_float, SFleb.
  cbn [fst snd]. intros Ha Hb Hl.
  destruct qa as [| qa | qa]; [| | lia].
  - destruct qb as [| qb | qb]; [reflexivity | | lia].
    destruct (eb <=? emax - prec); reflexivity.
  - destruct Hl as [Hl | (_ & Hqb & Hl)]; [lia |].
    destruct qb as [| qb | qb]; [lia | | lia].
    destruct (Z.leb_spec ea (emax - prec)), (Z.leb_spec eb (emax - prec));
      cbn [SFcompare]; try reflexivity; try lia.
    destruct (Z.compare_spec ea eb); try lia; try reflexivity.
    change (Pos.compare_cont Eq qa qb) with (Pos.compare qa qb).
    destruct (Pos.compare_spec qa qb); try reflexivity. lia.
Qed.

(** A value the format represents rounds to itself. *)
Lemma round_pos_exact m e k :
  0 < m -> 0 <= k -> fexp (Zdigits2 m + e) = e ->
  round_pos prec emax (m * 2 ^ k) (e - k) = (m, e).
Proof.
  intros Hm Hk Hc. unfold round_pos.
  rewrite Zdigits2_shift by lia.
  replace (Zdigits2 m + k + (e - k)) with (Zdigits2 m + e) by lia.
  rewrite Hc. replace (e - (e - k)) with k by lia.
  rewrite Z.max_r by lia.
  replace k with (0 + k) at 2 by lia. rewrite rne_scale, rne_0 by lia.
  replace (e - k + k) with e by lia.
  unfold post. rewrite Hc, Z.sub_diag. cbn [Z.max Z.compare].
  rewrite Z.pow_0_r, Z.div_1_r, Z.add_0_r. reflexivity.
Qed.

Lemma iter_xO m d : Zpos (Pos.iter xO m d) = Zpos m * 2 ^ Zpos d.
Proof.
  induction d as [| d IH] using Pos.peano_ind.
  - cbn [Pos.iter]. rewrite Z.pow_1_r. lia.
  - rewrite Pos.iter_succ, Pos2Z.inj_xO, IH, Pos2Z.inj_succ, Z.pow_succ_r by lia.
    lia.
Qed.

Lemma shl_align_eq m e e' :
  exists m', shl_align m e e' = (m', Z.min e e') /\
             Zpos m' = Zpos m * 2 ^ (e - Z.min e e').
Proof.
  unfold shl_align. destruct (e' - e) as [| d | d] eqn:Hd.
  - exists m. rewrite Z.min_l by lia. rewrite Z.sub_diag, Z.pow_0_r.
    split; [reflexivity | lia].
  - exists m. rewrite Z.min_l by lia. rewrite Z.sub_diag, Z.pow_0_r.
    split; [reflexivity | lia].
  - exists (Pos.iter xO m d). rewrite Z.min_r by lia.
    split; [reflexivity |]. rewrite iter_xO. f_equal. f_equal. lia.
Qed.

Lemma binary_round_eq s m e :
  let e0 := Z.min e (fexp (Zpos (digits2_pos m) + e)) in
  binary_round prec emax s m e
  = mk_float prec emax s (round_pos prec emax (Zpos m * 2 ^ (e - e0)) e0)
  /\ aligned prec emax (Zpos m * 2 ^ (e - e0)) e0.
Proof.
  intros e0. unfold binary_round.
  destruct (shl_align_eq m e (fexp (Zpos (digits2_pos m) + e)))
    as (m' & -> & Hm'). fold e0 in Hm'.
  rewrite binary_round_aux_eq, Hm'. split; [reflexivity |].
  unfold aligned. rewrite Zdigits2_shift by lia.
  change (Zdigits2 (Zpos m)) with (Zpos (digits2_pos m)).
  replace (Zpos (digits2_pos m) + (e - e0) + e0)
    with (Zpos (digits2_pos m) + e) by lia.
  lia.
Qed.
End FormatFacts.


Ltac cmp_cases :=
  repeat match goal with
  | |- context [Pos.compare_cont Eq ?a ?b] =>
      change (Pos.compare_cont Eq a b) with (Pos.compare a b)
  | |- context [Z.compare ?a ?b] => destruct (Z.compare_spec a b); try subst
  | |- context [Pos.compare ?a ?b] => destruct (Pos.compare_spec a b); try subst
  end.

Ltac cmp_solve :=
  cbn [SFcompare CompOpp]; cmp_cases; cbn [CompOpp];
  intros; first [reflexivity | discriminate | lia].

(** [SFcompare] orders the non-NaN values. *)
Lemma SFleb_trans x y z :
  SFleb x y = true -> SFleb y z = true -> SFleb x z = true.
Proof.
  unfold SFleb.
  destruct x as [sx | sx | | sx mx ex], y as [sy | sy | | sy my ey],
           z as [sz | sz | | sz mz ez];
    try destruct sx; try destruct sy; try destruct sz; cmp_solve.
Qed.

Lemma SFleb_ltb_trans x y z :
  SFleb x y = true -> SFltb y z = true -> SFltb x z = true.
Proof.
  unfold SFleb, SFltb.
  destruct x as [sx | sx | | sx mx ex], y as [sy | sy | | sy my ey],
           z as [sz | sz | | sz mz ez];
    try destruct sx; try destruct sy; try destruct sz; cmp_solve.
Qed.

(** ** Multiplication *)

Lemma SFmul_finite prec emax s1 m1 e1 s2 m2 e2 :
  SFmul prec emax (S754_finite s1 m1 e1) (S754_finite s2 m2 e2)
  = mk_float prec emax (xorb s1 s2) (round_pos prec emax (Zpos m1 * Zpos m2) (e1 + e2)).
Proof. cbn [SFmul]. rewrite binary_round_aux_eq. reflexivity. Qed.

Lemma aligned_mul_r prec emax m1 e1 m2 e2 :
  0 < prec -> 0 < m1 -> 2 ^ (prec - 1) <= m2 ->
  aligned prec emax (m1 * m2) (e1 + e2).
Proof.
  intros Hp H1 H2. unfold aligned.
  pose proof (pow2_pos (prec - 1) ltac:(lia)).
  assert (prec - 1 < Zdigits2 (m1 * m2)) by (apply Zdigits2_lb; nia).
  unfold fexp. lia.
Qed.

Lemma aligned_mul_l prec emax m1 e1 m2 e2 :
  0 < prec -> 2 ^ (prec - 1) <= m1 -> 0 < m2 ->
  aligned prec emax (m1 * m2) (e1 + e2).
Proof.
  intros. rewrite (Z.mul_comm m1), (Z.add_comm e1). apply aligned_mul_r; assumption.
Qed.

Lemma valid_finite_canonical prec emax s m e :
  valid_binary prec emax (S754_finite s m e) = true ->
  fexp prec emax (Zdigits2 (Zpos m) + e) = e /\ e <= emax - prec.
Proof.
  cbn [valid_binary]. unfold bounded, canonical_mantissa.
  intros H. apply andb_prop in H as [H1 H2].
  apply Z.eqb_eq in H1. apply Z.leb_le in H2. split; assumption.
Qed.

Lemma mk_float_canonical prec emax s m e :
  valid_binary prec emax (S754_finite s m e) = true ->
  mk_float prec emax s (round_pos prec emax (Zpos m) e) = S754_finite s m e.
Proof.
  intros Hv. apply valid_finite_canonical in Hv as [Hc Hb].
  pose proof (round_pos_exact prec emax (Zpos m) e 0 ltac:(lia) ltac:(lia) Hc) as He.
  rewrite Z.pow_0_r, Z.mul_1_r, Z.sub_0_r in He. rewrite He.
  unfold mk_float. cbn [fst snd].
  replace (e <=? emax - prec) with true by (symmetry; apply Z.leb_le; lia).
  reflexivity.
Qed.

Lemma val_le_mul_r m1 e1 m2 e2 a ea :
  0 < a -> val_le m1 e1 m2 e2 -> val_le (m1 * a) (e1 + ea) (m2 * a) (e2 + ea).
Proof.
  unfold val_le. intros Ha Hv.
  replace (Z.min (e1 + ea) (e2 + ea)) with (Z.min e1 e2 + ea) by lia.
  replace (e1 + ea - (Z.min e1 e2 + ea)) with (e1 - Z.min e1 e2) by lia.
  replace (e2 + ea - (Z.min e1 e2 + ea)) with (e2 - Z.min e1 e2) by lia.
  nia.
Qed.

(** Multiplying a positive float by the larger of two positive normal
    factors gives the larger product. *)
Lemma SFmul_mono_l prec emax m1 e1 m2 e2 ma ea :
  0 < prec ->
  2 ^ (prec - 1) <= Zpos m1 -> 2 ^ (prec - 1) <= Zpos m2 ->
  val_le (Zpos m1) e1 (Zpos m2) e2 ->
  SFleb (SFmul prec emax (S754_finite false m1 e1) (S754_finite false ma ea))
        (SFmul prec emax (S754_finite false m2 e2) (S754_finite false ma ea))
  = true.
Proof.
  intros Hp H1 H2 Hv. rewrite !SFmul_finite. cbn [xorb].
  apply mk_float_le.
  - apply round_pos_nonneg. lia.
  - apply round_pos_nonneg. lia.
  - apply round_pos_mono; try lia.
    + apply aligned_mul_l; lia.
    + apply aligned_mul_l; lia.
    + apply val_le_mul_r; [lia | exact Hv].
Qed.

(** Multiplying a positive float by a normal factor of at most 1 does not
    increase it. *)
Lemma SFmul_le_self prec emax ms es mc ec :
  0 < prec ->
  valid_binary prec emax (S754_finite false ms es) = true ->
  2 ^ (prec - 1) <= Zpos mc -> ec <= 0 -> Zpos mc <= 2 ^ (- ec) ->
  SFleb (SFmul prec emax (S754_finite false ms es) (S754_finite false mc ec))
        (S754_finite false ms es) = true.
Proof.
  intros Hp Hv Hc Hec Hle. rewrite SFmul_finite. cbn [xorb].
  rewrite <- (mk_float_canonical prec emax false ms es Hv).
  apply valid_finite_canonical in Hv as [Hcan _].
  apply mk_float_le.
  - apply round_pos_nonneg. lia.
  - apply round_pos_nonneg. lia.
  - apply round_pos_mono; try lia.
    + apply aligned_mul_r; lia.
    + unfold aligned. lia.
    + unfold val_le. rewrite Z.min_l by lia.
      rewrite Z.sub_diag, Z.pow_0_r.
      replace (es - (es + ec)) with (- ec) by lia. nia.
Qed.

Lemma SFmul_valid_r prec emax x s mc ec :
  0 < prec -> 2 ^ (prec - 1) <= Zpos mc ->
  valid_binary prec emax (SFmul prec emax x (S754_finite s mc ec)) = true.
Proof.
  intros Hp Hc. destruct x as [sx | sx | | sx mx ex]; try reflexivity.
  rewrite SFmul_finite. apply mk_float_valid; [lia | lia |].
  apply aligned_mul_r; lia.
Qed.

(** ** Conversions between binary32 and binary64 *)

Lemma F32_canonical s m e :
  F32.valid (S754_finite s m e) = true ->
  Zpos (digits2_pos m) <= 24 /\ -149 <= e <= 104 /\
  fexp 24 128 (Zpos (digits2_pos m) + e) = e.
Proof.
  intros Hv. apply valid_finite_canonical in Hv as [Hc Hb].
  change (Zdigits2 (Zpos m)) with (Zpos (digits2_pos m)) in Hc.
  split; [| split]; [| | exact Hc];
    unfold fexp, emin, F32.prec, F32.emax in *; lia.
Qed.

(** Promotion to [double] keeps the value: the mantissa is padded to 53
    digits. *)
Lemma double_of_float_finite s m e :
  F32.valid (S754_finite s m e) = true ->
  let k := 53 - Zpos (digits2_pos m) in
  exists m', Zpos m' = Zpos m * 2 ^ k /\
             double_of_float (S754_finite s m e) = S754_finite s m' (e - k).
Proof.
  intros Hv k. destruct (F32_canonical s m e Hv) as (Hd & He & Hc).
  cbn [double_of_float].
  destruct (binary_round_eq F64.prec F64.emax s m e) as [-> _].
  assert (He0 : Z.min e (fexp F64.prec F64.emax (Zpos (digits2_pos m) + e)) = e - k).
  { unfold fexp, emin, F64.prec, F64.emax, k. lia. }
  rewrite He0. replace (e - (e - k)) with k by lia.
  assert (Hk : 0 <= k) by (unfold k; lia).
  pose proof (pow2_pos k Hk) as HK.
  assert (Hdig : Zdigits2 (Zpos m * 2 ^ k) = 53).
  { rewrite Zdigits2_shift by lia.
    change (Zdigits2 (Zpos m)) with (Zpos (digits2_pos m)). unfold k. lia. }
  pose proof (round_pos_exact F64.prec F64.emax (Zpos m * 2 ^ k) (e - k) 0) as Hr.
  rewrite Z.pow_0_r, Z.mul_1_r, Z.sub_0_r in Hr. rewrite Hr; try lia.
  2:{ rewrite Hdig. unfold fexp, emin, F64.prec, F64.emax, k. lia. }
  unfold mk_float. cbn [fst snd].
  destruct (Zpos m * 2 ^ k) as [| m' | m'] eqn:Hm'; try lia.
  exists m'. split; [reflexivity |].
  replace (e - k <=? F64.emax - F64.prec) with true; [reflexivity |].
  symmetry. apply Z.leb_le. unfold F64.emax, F64.prec, k. lia.
Qed.

(** Storing a promoted [float] back into a [float] returns it. *)
Lemma float_of_double_of_float x :
  F32.valid x = true -> float_of_double (double_of_float x) = x.
Proof.
  destruct x as [sx | sx | | s m e]; try reflexivity.
  intros Hv. destruct (double_of_float_finite s m e Hv) as (m' & Hm' & ->).
  destruct (F32_canonical s m e Hv) as (Hd & He & Hc).
  set (k := 53 - Zpos (digits2_pos m)) in *.
  assert (Hk : 0 <= k) by (unfold k; lia).
  cbn [float_of_double].
  destruct (binary_round_eq F32.prec F32.emax s m' (e - k)) as [-> _].
  change (Zpos (digits2_pos m')) with (Zdigits2 (Zpos m')).
  rewrite Hm', Zdigits2_shift by lia.
  change (Zdigits2 (Zpos m)) with (Zpos (digits2_pos m)).
  replace (Zpos (digits2_pos m) + k + (e - k)) with (Zpos (digits2_pos m) + e) by lia.
  change (fexp F32.prec F32.emax) with (fexp 24 128). rewrite Hc.
  rewrite Z.min_l by lia. rewrite Z.sub_diag, Z.pow_0_r, Z.mul_1_r.
  rewrite round_pos_exact; try lia.
  2:{ exact Hc. }
  unfold mk_float. cbn [fst snd].
  replace (e <=? F32.emax - F32.prec) with true; [reflexivity |].
  symmetry. apply Z.leb_le. unfold F32.emax, F32.prec. lia.
Qed.

Lemma SFcompare_finite s1 m1 e1 s2 m2 e2 :
  SFcompare (S754_finite s1 m1 e1) (S754_finite s2 m2 e2)
  = Some match s1, s2 with
         | true, false => Lt
         | false, true => Gt
         | false, false => lex_compare e1 m1 e2 m2
         | true, true => CompOpp (lex_compare e1 m1 e2 m2)
         end.
Proof.
  cbn [SFcompare]. unfold lex_compare.
  destruct s1, s2; try reflexivity. destruct (Z.compare e1 e2); reflexivity.
Qed.

Lemma Z_mul_compare_r a b p : 0 < p -> (a * p ?= b * p) = (a ?= b).
Proof.
  intros Hp. destruct (Z.compare_spec a b) as [-> | Hlt | Hgt].
  - apply Z.compare_refl.
  - apply Z.compare_lt_iff. nia.
  - apply Z.compare_gt_iff. nia.
Qed.

Lemma lex_compare_widen mx ex my ey mx' my' :
  F32.valid (S754_finite false mx ex) = true ->
  F32.valid (S754_finite false my ey) = true ->
  Zpos mx' = Zpos mx * 2 ^ (53 - Zpos (digits2_pos mx)) ->
  Zpos my' = Zpos my * 2 ^ (53 - Zpos (digits2_pos my)) ->
  lex_compare (ex - (53 - Zpos (digits2_pos mx))) mx'
              (ey - (53 - Zpos (digits2_pos my))) my'
  = lex_compare ex mx ey my.
Proof.
  intros Hvx Hvy Hx' Hy'.
  destruct (F32_canonical _ _ _ Hvx) as (Hdx & Hex & Hcx).
  destruct (F32_canonical _ _ _ Hvy) as (Hdy & Hey & Hcy).
  pose proof (digits2_pos_bounds mx) as [Hlox Hhix].
  pose proof (digits2_pos_bounds my) as [Hloy Hhiy].
  unfold fexp, emin in Hcx, Hcy.
  set (dx := Zpos (digits2_pos mx)) in *.
  set (dy := Zpos (digits2_pos my)) in *.
  assert (Hdx0 : 0 < dx) by (unfold dx; lia).
  assert (Hdy0 : 0 < dy) by (unfold dy; lia).
  unfold lex_compare.
  change (Pos.compare_cont Eq mx' my') with (Pos.compare mx' my').
  change (Pos.compare_cont Eq mx my) with (Pos.compare mx my).
  rewrite !Pos2Z.inj_compare, Hx', Hy'.
  destruct (Z.compare_spec ex ey) as [Heq | Hlt | Hgt].
  - subst ey. destruct (Z.lt_trichotomy dx dy) as [Hd | [Hd | Hd]].
    + assert (Zpos mx < Zpos my).
      { assert (2 ^ dx <= 2 ^ (dy - 1)) by (apply Z.pow_le_mono_r; lia). lia. }
      replace (ex - (53 - dx) ?= ex - (53 - dy)) with Lt
        by (symmetry; apply Z.compare_lt_iff; lia).
      symmetry. apply Z.compare_lt_iff. lia.
    + rewrite Hd. rewrite Z.compare_refl.
      apply Z_mul_compare_r. apply pow2_pos. lia.
    + assert (Zpos my < Zpos mx).
      { assert (2 ^ dy <= 2 ^ (dx - 1)) by (apply Z.pow_le_mono_r; lia). lia. }
      replace (ex - (53 - dx) ?= ex - (53 - dy)) with Gt
        by (symmetry; apply Z.compare_gt_iff; lia).
      symmetry. apply Z.compare_gt_iff. lia.
  - replace (ex - (53 - dx) ?= ey - (53 - dy)) with Lt; [reflexivity |].
    symmetry. apply Z.compare_lt_iff. lia.
  - replace (ex - (53 - dx) ?= ey - (53 - dy)) with Gt; [reflexivity |].
    symmetry. apply Z.compare_gt_iff. lia.
Qed.

(** Promotion preserves comparisons. *)
Lemma double_of_float_compare x y :
  F32.valid x = true -> F32.valid y = true ->
  SFcompare (double_of_float x) (double_of_float y) = SFcompare x y.
Proof.
  intros Hx Hy.
  destruct x as [sx | sx | | sx mx ex], y as [sy | sy | | sy my ey];
    try reflexivity;
    try (destruct (double_of_float_finite _ _ _ Hx) as (mx' & Hmx & ->));
    try (destruct (double_of_float_finite _ _ _ Hy) as (my' & Hmy & ->));
    try reflexivity.
  rewrite !SFcompare_finite.
  rewrite (lex_compare_widen mx ex my ey mx' my'); try assumption; reflexivity.
Qed.

Lemma is_nan_double_of_float x :
  F32.valid x = true -> is_nan (double_of_float x) = is_nan x.
Proof.
  intros Hx. destruct x as [sx | sx | | sx mx ex]; try reflexivity.
  destruct (double_of_float_finite _ _ _ Hx) as (mx' & _ & ->). reflexivity.
Qed.

Lemma fmax_double_of_float x y :
  F32.valid x = true -> F32.valid y = true ->
  fmax (double_of_float x) (double_of_float y) = double_of_float (fmax x y).
Proof.
  intros Hx Hy. unfold fmax, SFleb.
  rewrite double_of_float_compare, is_nan_double_of_float by assumption.
  destruct (_ || _); reflexivity.
Qed.

Lemma fmax_valid x y :
  F32.valid x = true -> F32.valid y = true -> F32.valid (fmax x y) = true.
Proof. intros Hx Hy. unfold fmax. destruct (_ || _); assumption. Qed.

Lemma SMOOTHING_eq : SMOOTHING = S754_finite false 15099494 (-24).
Proof. vm_compute. reflexivity. Qed.

Lemma F32_mul_SMOOTHING_valid x : F32.valid (F32.mul x SMOOTHING) = true.
Proof.
  rewrite SMOOTHING_eq. apply SFmul_valid_r; [reflexivity |].
  vm_compute. discriminate.
Qed.

(** The smoothing assignment, without the promotions. *)
Lemma smooth_eq fPrevious fNew :
  F32.valid fNew = true ->
  smooth fPrevious fNew = fmax (F32.mul fPrevious SMOOTHING) fNew.
Proof.
  intros Hn. unfold smooth.
  pose proof (F32_mul_SMOOTHING_valid fPrevious) as Hm.
  rewrite fmax_double_of_float by assumption.
  apply float_of_double_of_float. apply fmax_valid; assumption.
Qed.

(** ** Order facts *)

Lemma SFleb_antisym x y :
  SFleb x y = true -> SFleb y x = true -> SFcompare x y = Some Eq.
Proof.
  unfold SFleb.
  destruct x as [sx | sx | | sx mx ex], y as [sy | sy | | sy my ey];
    try destruct sx; try destruct sy; cmp_solve.
Qed.

Lemma SFcompare_Eq_eq x y :
  SFcompare x y = Some Eq -> is_zero y = false -> x = y.
Proof.
  destruct x as [sx | sx | | sx mx ex], y as [sy | sy | | sy my ey];
    try destruct sx; try destruct sy; cbn [SFcompare is_zero CompOpp];
    try discriminate; try reflexivity.
  all: destruct (Z.compare_spec ex ey); try discriminate; subst;
       change (Pos.compare_cont Eq mx my) with (Pos.compare mx my);
       destruct (Pos.compare_spec mx my); try discriminate; subst; reflexivity.
Qed.

Lemma SFleb_refl x : is_nan x = false -> SFleb x x = true.
Proof.
  unfold SFleb. destruct x as [sx | sx | | sx mx ex]; try destruct sx;
    cbn [SFcompare is_nan]; try reflexivity; try discriminate; intros _.
  all: rewrite Z.compare_refl;
       change (Pos.compare_cont Eq mx mx) with (Pos.compare mx mx);
       rewrite Pos.compare_refl; reflexivity.
Qed.

Lemma SFleb_total x y :
  is_nan x = false -> is_nan y = false ->
  SFleb x y = false -> SFleb y x = true.
Proof.
  unfold SFleb.
  destruct x as [sx | sx | | sx mx ex], y as [sy | sy | | sy my ey];
    try destruct sx; try destruct sy; cbn [is_nan]; cmp_solve.
Qed.

(** [fmax] returns one of its arguments, and an upper bound of both when
    neither is a NaN. *)
Lemma fmax_spec x y :
  (fmax x y = x \/ fmax x y = y) /\
  (is_nan x = false -> is_nan y = false ->
   SFleb x (fmax x y) = true /\ SFleb y (fmax x y) = true).
Proof.
  unfold fmax. split.
  - destruct (_ || _); [left | right]; reflexivity.
  - intros Hx Hy. rewrite Hy, orb_false_r.
    destruct (SFleb y x) eqn:Hyx.
    + split; [apply SFleb_refl; exact Hx | exact Hyx].
    + split; [apply SFleb_total; assumption | apply SFleb_refl; exact Hy].
Qed.

Lemma float_of_double_valid x : F32.valid (float_of_double x) = true.
Proof.
  destruct x as [sx | sx | | s m e]; try reflexivity.
  cbn [float_of_double].
  destruct (binary_round_eq F32.prec F32.emax s m e) as [-> Ha].
  apply mk_float_valid; [reflexivity | | exact Ha].
  pose proof (pow2_pos (e - Z.min e (fexp F32.prec F32.emax (Zpos (digits2_pos m) + e)))
                ltac:(lia)). lia.
Qed.

(** ** REMAP *)

Lemma REMAP_mono x y : SFleb x y = true -> (REMAP x <= REMAP y)%nat.
Proof.
  intros Hle. unfold REMAP.
  destruct (SFltb y (afAmplitudeBrackets !!! 1%nat)) eqn:Hy1.
  { rewrite (SFleb_ltb_trans _ _ _ Hle Hy1). lia. }
  destruct (SFltb y (afAmplitudeBrackets !!! 2%nat)) eqn:Hy2.
  { rewrite (SFleb_ltb_trans _ _ _ Hle Hy2).
    destruct (SFltb x _); lia. }
  destruct (SFltb x _); [lia |]. destruct (SFltb x _); lia.
Qed.

Lemma REMAP_bound X : (REMAP X < 3)%nat.
Proof. unfold REMAP. destruct (SFltb X _); [lia |]. destruct (SFltb X _); lia. Qed.

(** ** Row attenuation *)

Lemma fAttenuation_values :
  fAttenuation 0 = S754_finite false 11184811 (-26) /\
  fAttenuation 1 = S754_finite false 11184811 (-25) /\
  fAttenuation 2 = S754_finite false 8388608 (-24) /\
  fAttenuation 3 = S754_finite false 11184811 (-24) /\
  fAttenuation 4 = S754_finite false 13981013 (-24) /\
  fAttenuation 5 = S754_finite false 8388608 (-23).
Proof. repeat split; vm_compute; reflexivity. Qed.

Lemma attenuated_succ_le a r :
  SFleb (S754_zero false) a = true -> (r < 5)%nat ->
  SFleb (F32.mul (fAttenuation r) a) (F32.mul (fAttenuation (S r)) a) = true.
Proof.
  intros Ha Hr.
  destruct fAttenuation_values as (H0 & H1 & H2 & H3 & H4 & H5).
  assert (Hcases : (r = 0 \/ r = 1 \/ r = 2 \/ r = 3 \/ r = 4)%nat) by lia.
  destruct a as [sa | sa | | sa ma ea]; try destruct sa; try discriminate Ha.
  - destruct Hcases as [-> | [-> | [-> | [-> | ->]]]];
      rewrite ?H0, ?H1, ?H2, ?H3, ?H4, ?H5; reflexivity.
  - destruct Hcases as [-> | [-> | [-> | [-> | ->]]]];
      rewrite ?H0, ?H1, ?H2, ?H3, ?H4, ?H5; reflexivity.
  - destruct Hcases as [-> | [-> | [-> | [-> | ->]]]];
      rewrite ?H0, ?H1, ?H2, ?H3, ?H4, ?H5; reflexivity.
  - destruct Hcases as [-> | [-> | [-> | [-> | ->]]]];
      rewrite ?H0, ?H1, ?H2, ?H3, ?H4, ?H5;
      apply SFmul_mono_l; try reflexivity; try (simpl; lia);
      unfold val_le; apply Z.leb_le; vm_compute; reflexivity.
Qed.

Lemma SFmul_finite_not_nan prec emax s1 m1 e1 s2 m2 e2 :
  is_nan (SFmul prec emax (S754_finite s1 m1 e1) (S754_finite s2 m2 e2)) = false.
Proof.
  rewrite SFmul_finite.
  pose proof (round_pos_nonneg prec emax (Zpos m1 * Zpos m2) (e1 + e2) ltac:(lia)).
  unfold mk_float. destruct (fst _); [reflexivity | | lia].
  destruct (_ <=? _); reflexivity.
Qed.

(** The attenuated amplitude grows with the row. *)
Lemma attenuated_le a r1 r2 :
  SFleb (S754_zero false) a = true -> (r1 <= r2)%nat -> (r2 < 6)%nat ->
  SFleb (F32.mul (fAttenuation r1) a) (F32.mul (fAttenuation r2) a) = true.
Proof.
  intros Ha Hle. induction Hle as [| r2 Hle IH]; intros Hr2.
  - apply SFleb_refl.
    destruct fAttenuation_values as (H0 & H1 & H2 & H3 & H4 & H5).
    assert (Hcases : (r1 = 0 \/ r1 = 1 \/ r1 = 2 \/ r1 = 3 \/ r1 = 4 \/ r1 = 5)%nat) by lia.
    destruct a as [sa | sa | | sa ma ea]; try destruct sa; try discriminate Ha;
      destruct Hcases as [-> | [-> | [-> | [-> | [-> | ->]]]]];
      rewrite ?H0, ?H1, ?H2, ?H3, ?H4, ?H5; try reflexivity.
    all: apply SFmul_finite_not_nan.
  - eapply SFleb_trans; [apply IH; lia |].
    apply attenuated_succ_le; [assumption | lia].
Qed.

(** ** Smoothing *)

Lemma nonneg_cases m :
  SFleb (S754_zero false) m = true ->
  (exists s, m = S754_zero s) \/ m = S754_infinity false \/
  (exists mm em, m = S754_finite false mm em).
Proof.
  destruct m as [s | s | | s mm em]; try destruct s; try discriminate; intros _;
    eauto.
Qed.

(** Decay keeps a state that is at most [m >= 0] at most [m]. *)
Lemma mul_SMOOTHING_le s m :
  F32.valid s = true ->
  SFleb (S754_zero false) m = true -> SFleb s m = true ->
  SFleb (F32.mul s SMOOTHING) m = true.
Proof.
  intros Hs Hm Hsm. rewrite SMOOTHING_eq.
  destruct s as [ss | ss | | ss ms es].
  - destruct (nonneg_cases m Hm) as [[sm ->] | [-> | (mm & em & ->)]];
      destruct ss; reflexivity.
  - destruct ss.
    + destruct (nonneg_cases m Hm) as [[sm ->] | [-> | (mm & em & ->)]];
        reflexivity.
    + destruct m as [sm | sm | | sm mm em]; try destruct sm; try discriminate Hsm.
      reflexivity.
  - discriminate Hsm.
  - destruct ss.
    + unfold F32.mul. rewrite SFmul_finite. cbn [xorb].
      pose proof (round_pos_nonneg F32.prec F32.emax (Zpos ms * 15099494) (es + -24)
                    ltac:(lia)) as Hnn.
      unfold mk_float. destruct (fst _) as [| q | q]; [| | lia].
      * destruct (nonneg_cases m Hm) as [[sm ->] | [-> | (mm & em & ->)]];
          reflexivity.
      * destruct (_ <=? _);
          destruct (nonneg_cases m Hm) as [[sm ->] | [-> | (mm & em & ->)]];
          reflexivity.
    + eapply SFleb_trans; [| exact Hsm].
      apply SFmul_le_self; [reflexivity | exact Hs | | lia |];
        apply Z.leb_le; vm_compute; reflexivity.
Qed.

Lemma smooth_settles s m :
  F32.valid s = true -> F32.valid m = true ->
  SFleb (S754_zero false) m = true -> SFleb s m = true ->
  F32.valid (smooth s m) = true /\ SFcompare (smooth s m) m = Some Eq.
Proof.
  intros Hs Hv Hm Hsm.
  pose proof (mul_SMOOTHING_le s m Hs Hm Hsm) as Hx.
  rewrite smooth_eq by assumption. unfold fmax.
  assert (Hnan : is_nan m = false) by (destruct m; [reflexivity .. | discriminate Hm | reflexivity]).
  rewrite Hnan, orb_false_r.
  destruct (SFleb m (F32.mul s SMOOTHING)) eqn:Hmx.
  - split; [apply F32_mul_SMOOTHING_valid | apply SFleb_antisym; assumption].
  - split; [assumption |]. apply SFleb_antisym; apply SFleb_refl; assumption.
Qed.

Lemma SFcompare_Eq_leb x y : SFcompare x y = Some Eq -> SFleb x y = true.
Proof. unfold SFleb. intros ->. reflexivity. Qed.

Lemma smooth_iter_settles s m n :
  F32.valid s = true -> F32.valid m = true ->
  SFleb (S754_zero false) m = true -> SFleb s m = true ->
  F32.valid (Nat.iter (S n) (fun st => smooth st m) s) = true /\
  SFcompare (Nat.iter (S n) (fun st => smooth st m) s) m = Some Eq.
Proof.
  intros Hs Hv Hm Hsm. induction n as [| n [IHv IHc]].
  - cbn [Nat.iter]. apply smooth_settles; assumption.
  - change (Nat.iter (S (S n)) (fun st => smooth st m) s)
      with (smooth (Nat.iter (S n) (fun st => smooth st m) s) m).
    apply smooth_settles; try assumption. apply SFcompare_Eq_leb. exact IHc.
Qed.

(** ** Traces *)

Lemma releases_app a b : releases (a ++ b) = releases a ++ releases b.
Proof. apply omap_app. Qed.

Lemma acquisitions_app a b : acquisitions (a ++ b) = acquisitions a ++ acquisitions b.
Proof. apply omap_app. Qed.

Lemma cells_app a b : cells (a ++ b) = cells a ++ cells b.
Proof. apply omap_app. Qed.

Lemma renders_app a b : renders (a ++ b) = (renders a + renders b)%nat.
Proof. unfold renders. rewrite filter_app, length_app. reflexivity. Qed.

Lemma reports_app a b : reports (a ++ b) = (reports a + reports b)%nat.
Proof. unfold reports. rewrite filter_app, length_app. reflexivity. Qed.

Lemma printWordle_releases f : releases (printWordle f) = [].
Proof. reflexivity. Qed.

Lemma printWordle_acquisitions f : acquisitions (printWordle f) = [].
Proof. reflexivity. Qed.

Lemma printWordle_renders f : renders (printWordle f) = 1%nat.
Proof. reflexivity. Qed.

Lemma printWordle_reports f : reports (printWordle f) = 0%nat.
Proof. reflexivity. Qed.

Section ProgramFacts.
Variable log10 : double -> double.
Variable fftw_execute : list double -> nat -> fftw_complex.
Variable pa_simple_read : nat -> option (list float).

Local Abbreviation loop := (capture_loop log10 fftw_execute pa_simple_read).

(** The loop neither acquires nor releases a resource. *)
Lemma capture_loop_resources n : forall idx frame,
  acquisitions (fst (loop n idx frame)) = [] /\
  releases (fst (loop n idx frame)) = [].
Proof.
  induction n as [| n IH]; intros idx frame; cbn [capture_loop].
  - split; reflexivity.
  - destruct (pa_simple_read idx) as [buf |]; [| split; reflexivity].
    specialize (IH (S idx)
      (populate log10 (fftw_execute (map double_of_float buf)) frame)).
    destruct (loop n (S idx) _) as [tr final]. cbn [fst] in *.
    destruct IH as [IHa IHr].
    change (?a :: ?b :: ?c :: ?l ++ tr) with ([a; b; c] ++ l ++ tr).
    rewrite !acquisitions_app, !releases_app, IHa, IHr.
    rewrite printWordle_acquisitions, printWordle_releases. split; reflexivity.
Qed.

(** If all [n] reads succeed, [n] grids are rendered and nothing is
    reported. *)
Lemma capture_loop_complete n : forall idx frame,
  (forall i, (idx <= i < idx + n)%nat -> is_Some (pa_simple_read i)) ->
  renders (fst (loop n idx frame)) = n /\
  reports (fst (loop n idx frame)) = 0%nat.
Proof.
  induction n as [| n IH]; intros idx frame Hok; cbn [capture_loop].
  - split; reflexivity.
  - destruct (Hok idx ltac:(lia)) as [buf ->].
    specialize (IH (S idx)
      (populate log10 (fftw_execute (map double_of_float buf)) frame)
      ltac:(intros i Hi; apply Hok; lia)).
    destruct (loop n (S idx) _) as [tr final]. cbn [fst] in *.
    destruct IH as [IHr IHp].
    change (?a :: ?b :: ?c :: ?l ++ tr) with ([a; b; c] ++ l ++ tr).
    rewrite !renders_app, !reports_app, IHr, IHp.
    rewrite printWordle_renders, printWordle_reports. split; reflexivity.
Qed.

(** If the read after [k] successful ones fails, [k] grids are rendered
    and the failure is reported once. *)
Lemma capture_loop_failure k : forall n idx frame,
  (k < n)%nat ->
  (forall i, (idx <= i < idx + k)%nat -> is_Some (pa_simple_read i)) ->
  pa_simple_read (idx + k)%nat = None ->
  renders (fst (loop n idx frame)) = k /\
  reports (fst (loop n idx frame)) = 1%nat.
Proof.
  induction k as [| k IH]; intros n idx frame Hk Hok Hfail;
    destruct n as [| n]; try lia; cbn [capture_loop].
  - rewrite Nat.add_0_r in Hfail. rewrite Hfail. split; reflexivity.
  - destruct (Hok idx ltac:(lia)) as [buf ->].
    specialize (IH n (S idx)
      (populate log10 (fftw_execute (map double_of_float buf)) frame)
      ltac:(lia) ltac:(intros i Hi; apply Hok; lia)).
    rewrite <- Nat.add_succ_comm in Hfail. specialize (IH Hfail).
    destruct (loop n (S idx) _) as [tr final]. cbn [fst] in *.
    destruct IH as [IHr IHp].
    change (?a :: ?b :: ?c :: ?l ++ tr) with ([a; b; c] ++ l ++ tr).
    rewrite !renders_app, !reports_app, IHr, IHp.
    rewrite printWordle_renders, printWordle_reports. split; reflexivity.
Qed.

(** The column loop touches each column once. *)

Lemma fold_column_step out cols : forall frame,
  NoDup cols ->
  (forall c, elem_of c cols -> (c < length (afAmplitudes frame))%nat) ->
  length (afAmplitudes (fold_left (column_step log10 out) cols frame))
    = length (afAmplitudes frame) /\
  forall col,
    afAmplitudes (fold_left (column_step log10 out) cols frame) !! col =
    if decide (elem_of col cols)
    then Some (smooth (afAmplitudes frame !!! col) (fAmplitude log10 out col))
    else afAmplitudes frame !! col.
Proof.
  induction cols as [| c cs IH]; intros frame Hnd Hlen; cbn [fold_left].
  - split; [reflexivity |]. intros col.
    destruct (decide (elem_of col [])) as [Hin | _]; [| reflexivity].
    inversion Hin.
  - apply NoDup_cons in Hnd as [Hc Hnd].
    assert (Hlen1 : length (afAmplitudes (column_step log10 out frame c))
                    = length (afAmplitudes frame)).
    { unfold column_step. cbn [afAmplitudes]. apply length_insert. }
    destruct (IH (column_step log10 out frame c) Hnd) as [IHl IHv].
    { intros c' Hc'. rewrite Hlen1. apply Hlen. right. exact Hc'. }
    split; [lia |]. intros col. rewrite IHv.
    unfold column_step. cbn [afAmplitudes].
    destruct (decide (elem_of col cs)) as [Hin | Hnin].
    + assert (c <> col) by (intros ->; contradiction).
      rewrite list_lookup_total_insert_ne by assumption.
      rewrite decide_True by (right; exact Hin). reflexivity.
    + destruct (decide (col = c)) as [-> | Hne].
      * rewrite decide_True by left.
        apply list_lookup_insert_eq. apply Hlen. left.
      * rewrite list_lookup_insert_ne by congruence.
        rewrite decide_False; [reflexivity |].
        intros Hin. apply elem_of_cons in Hin as [? | ?]; contradiction.
Qed.

Lemma populate_lookup out frame col :
  length (afAmplitudes frame) = Z.to_nat WORDLE_COLUMNS ->
  (col < Z.to_nat WORDLE_COLUMNS)%nat ->
  afAmplitudes (populate log10 out frame) !! col
  = Some (smooth (afAmplitudes frame !!! col) (fAmplitude log10 out col)).
Proof.
  intros Hlen Hcol. unfold populate.
  destruct (fold_column_step out (seq 0 (Z.to_nat WORDLE_COLUMNS)) frame)
    as [_ Hv].
  - apply NoDup_seq.
  - intros c Hc. apply elem_of_seq in Hc. lia.
  - rewrite Hv. rewrite decide_True; [reflexivity |].
    apply elem_of_seq. lia.
Qed.

Lemma populate_length out frame :
  length (afAmplitudes frame) = Z.to_nat WORDLE_COLUMNS ->
  length (afAmplitudes (populate log10 out frame)) = Z.to_nat WORDLE_COLUMNS.
Proof.
  intros Hlen. unfold populate.
  destruct (fold_column_step out (seq 0 (Z.to_nat WORDLE_COLUMNS)) frame)
    as [Hl _].
  - apply NoDup_seq.
  - intros c Hc. apply elem_of_seq in Hc. lia.
  - lia.
Qed.
End ProgramFacts.

Section SilenceFacts.
Variable log10 : double -> double.
Variable fftw_execute : list double -> nat -> fftw_complex.
Variable pa_simple_read : nat -> option (list float).
Hypothesis Hpole : log10_pole log10.

Lemma F64_square_zero z :
  is_zero z = true -> F64.mul z z = S754_zero false.
Proof. destruct z as [[] | | |]; try discriminate; reflexivity. Qed.

Lemma fAmplitude_silence out col :
  (forall k, is_zero (fst (out k)) = true) ->
  fAmplitude log10 out col = S754_infinity true.
Proof.
  intros Hz. unfold fAmplitude, subscript, deref, addr_of.
  cbn [buffer offset]. rewrite !F64_square_zero by apply Hz.
  change (F64.add (S754_zero false) (S754_zero false)) with (S754_zero false).
  rewrite Hpole. reflexivity.
Qed.

Lemma column_step_silence out col :
  (forall k, is_zero (fst (out k)) = true) -> (col < 5)%nat ->
  column_step log10 out sWordleFrame0 col = sWordleFrame0.
Proof.
  intros Hz Hcol. unfold column_step. rewrite fAmplitude_silence by assumption.
  assert (Hc : (col = 0 \/ col = 1 \/ col = 2 \/ col = 3 \/ col = 4)%nat) by lia.
  destruct Hc as [-> | [-> | [-> | [-> | ->]]]]; vm_compute; reflexivity.
Qed.

Lemma populate_silence out :
  (forall k, is_zero (fst (out k)) = true) ->
  populate log10 out sWordleFrame0 = sWordleFrame0.
Proof.
  intros Hz. unfold populate.
  change (seq 0 (Z.to_nat WORDLE_COLUMNS)) with [0; 1; 2; 3; 4]%nat.
  cbn [fold_left]. rewrite !column_step_silence by (assumption || lia).
  reflexivity.
Qed.

Lemma printWordle_silence :
  cells (printWordle sWordleFrame0) = replicate 30 (acPalette !!! 0%nat).
Proof. vm_compute. reflexivity. Qed.

Lemma double_of_float_zero buf :
  Forall (fun v => is_zero v = true) buf ->
  Forall (fun v => is_zero v = true) (map double_of_float buf).
Proof.
  induction 1 as [| v buf Hv _ IH]; constructor; [| exact IH].
  destruct v; try discriminate. reflexivity.
Qed.

Hypothesis Hfftw : fftw_silence fftw_execute.
Hypothesis Hsilent : forall i buf,
  pa_simple_read i = Some buf -> Forall (fun v => is_zero v = true) buf.

(** Silence keeps the frame at zero, and the zero frame renders the first
    palette entry throughout. *)
Lemma capture_loop_silence n : forall idx,
  let tr := fst (capture_loop log10 fftw_execute pa_simple_read n idx sWordleFrame0) in
  cells tr = replicate (30 * renders tr) (acPalette !!! 0%nat).
Proof.
  induction n as [| n IH]; intros idx; cbn [capture_loop].
  - reflexivity.
  - destruct (pa_simple_read idx) as [buf |] eqn:Hread; [| reflexivity].
    rewrite populate_silence.
    2:{ intros k. apply Hfftw. apply double_of_float_zero. eapply Hsilent, Hread. }
    specialize (IH (S idx)). cbn zeta in IH.
    destruct (capture_loop _ _ _ n (S idx) sWordleFrame0) as [tr final].
    cbn [fst] in *.
    change (?a :: ?b :: ?c :: ?l ++ tr) with ([a; b; c] ++ l ++ tr).
    rewrite !cells_app, !renders_app, IH, printWordle_silence, printWordle_renders.
    change (cells [_; _; _]) with (@nil wchar_t).
    change (renders [_; _; _]) with 0%nat.
    cbn [app]. rewrite <- replicate_add. f_equal. lia.
Qed.
End SilenceFacts.

(** ** The executable instances meet the assumptions *)

Lemma log10_coarse_pole : log10_pole log10_coarse.
Proof. reflexivity. Qed.

Lemma twiddles_finite :
  forallb (fun w => finite_or_zero (fst w) && finite_or_zero (snd w)) twiddles = true.
Proof. vm_compute. reflexivity. Qed.

Lemma lookup_total_forallb (P : fftw_complex -> bool) (l : list fftw_complex) :
  P inhabitant = true -> forallb P l = true -> forall i, P (l !!! i) = true.
Proof.
  intros Hd. induction l as [| w l IH]; intros Hall i.
  - destruct i; exact Hd.
  - cbn [forallb] in Hall. apply andb_prop in Hall as [Hw Hl].
    destruct i as [| i]; [exact Hw | exact (IH Hl i)].
Qed.

Lemma twiddle_lookup_finite i :
  finite_or_zero (fst (twiddles !!! i)) = true /\
  finite_or_zero (snd (twiddles !!! i)) = true.
Proof.
  apply andb_prop.
  apply (lookup_total_forallb
           (fun w => finite_or_zero (fst w) && finite_or_zero (snd w)));
    [reflexivity | exact twiddles_finite].
Qed.

Lemma zero_mul_finite v w :
  is_zero v = true -> finite_or_zero w = true -> is_zero (F64.mul v w) = true.
Proof. destruct v, w; try discriminate; reflexivity. Qed.

Lemma zero_add_zero a b :
  is_zero a = true -> is_zero b = true -> is_zero (F64.add a b) = true.
Proof. destruct a as [[] | | |], b as [[] | | |]; try discriminate; reflexivity. Qed.

Lemma zero_sub_zero a b :
  is_zero a = true -> is_zero b = true -> is_zero (F64.sub a b) = true.
Proof. destruct a as [[] | | |], b as [[] | | |]; try discriminate; reflexivity. Qed.

Lemma dft_sum_silence k x : forall j acc,
  Forall (fun v => is_zero v = true) x ->
  is_zero (fst acc) = true -> is_zero (snd acc) = true ->
  is_zero (fst (dft_sum k j x acc)) = true /\
  is_zero (snd (dft_sum k j x acc)) = true.
Proof.
  induction x as [| v x IH]; intros j acc Hx Hre Him; cbn [dft_sum].
  - split; assumption.
  - apply Forall_cons in Hx as [Hv Hx].
    destruct (twiddle_lookup_finite ((j * k) mod Z.to_nat BUFSIZE)) as [Hc Hs].
    apply IH; [exact Hx | |]; unfold dft_term; cbn [fst snd].
    + apply zero_add_zero; [exact Hre | apply zero_mul_finite; assumption].
    + apply zero_sub_zero; [exact Him | apply zero_mul_finite; assumption].
Qed.

Lemma dft_direct_silence : fftw_silence dft_direct.
Proof.
  intros x k Hx. unfold dft_direct. apply dft_sum_silence; [exact Hx | |]; reflexivity.
Qed.

(** ** The bin table in exact arithmetic *)

Lemma midpoint_index_range N C X :
  2 <= N -> 0 < C -> 0 <= X < C -> 0 <= midpoint_index N C X < N / 2.
Proof.
  intros HN HC HX. unfold midpoint_index.
  rewrite (Z.quot_div_nonneg N 2) by lia.
  rewrite Z.quot_div_nonneg by first [lia | apply Z.div_pos; lia].
  assert (Hh : 1 <= N / 2) by (apply Z.div_le_lower_bound; lia).
  set (h := N / 2) in *.
  assert (Hq : 0 <= h / C) by (apply Z.div_pos; lia).
  assert (HqC : h / C * C <= h).
  { pose proof (Z.mul_div_le h C HC). lia. }
  set (q := h / C) in *.
  split.
  - apply Z.div_pos; nia.
  - apply Z.div_lt_upper_bound; nia.
Qed.

(** * Further lemmas *)

(** ** The read loop *)

Lemma reads_attempted_app a b :
  reads_attempted (a ++ b) = (reads_attempted a + reads_attempted b)%nat.
Proof. unfold reads_attempted. rewrite filter_app, length_app. reflexivity. Qed.

Lemma executes_app a b : executes (a ++ b) = (executes a + executes b)%nat.
Proof. unfold executes. rewrite filter_app, length_app. reflexivity. Qed.

Lemma capture_loop_counts
    (log10 : double -> double) (fftw : list double -> nat -> fftw_complex)
    (reads : nat -> option (list float)) (n : nat) :
  forall idx frame,
  let tr := fst (capture_loop log10 fftw reads n idx frame) in
  (renders tr <= n)%nat /\
  (reports tr <= 1)%nat /\
  (forall i, (idx <= i < idx + renders tr)%nat -> is_Some (reads i)) /\
  (reports tr = 0%nat -> renders tr = n) /\
  (reports tr = 1%nat ->
     (renders tr < n)%nat /\ reads (idx + renders tr)%nat = None) /\
  reads_attempted tr = (renders tr + reports tr)%nat /\
  executes tr = renders tr /\
  length (cells tr) = (30 * renders tr)%nat.
Proof.
  induction n as [| n IH]; intros idx frame; cbn [capture_loop].
  - cbn [fst].
    change (renders []) with 0%nat. change (reports []) with 0%nat.
    change (reads_attempted []) with 0%nat. change (executes []) with 0%nat.
    change (length (cells [])) with 0%nat.
    repeat split; intros; lia.
  - destruct (reads idx) as [buf |] eqn:Hread.
    + specialize (IH (S idx)
        (populate log10 (fftw (map double_of_float buf)) frame)).
      cbn zeta in IH.
      destruct (capture_loop _ _ _ n (S idx) _) as [tr' final]. cbn [fst] in *.
      destruct IH as (H1 & H2 & H3 & H4 & H5 & H6 & H7 & H8).
      change (?a :: ?b :: ?c :: ?l ++ tr') with ([a; b; c] ++ l ++ tr').
      rewrite !renders_app, !reports_app, !reads_attempted_app, !executes_app,
              !cells_app, !length_app.
      rewrite printWordle_renders, printWordle_reports.
      change (renders [_; _; _]) with 0%nat.
      change (reports [_; _; _]) with 0%nat.
      change (reads_attempted [_; _; _]) with 1%nat.
      change (executes [_; _; _]) with 1%nat.
      change (reads_attempted (printWordle _)) with 0%nat.
      change (executes (printWordle _)) with 0%nat.
      change (length (cells [_; _; _])) with 0%nat.
      change (length (cells (printWordle _))) with 30%nat.
      cbn [Nat.add].
      split; [lia |]. split; [lia |]. split.
      { intros i Hi. destruct (Nat.eq_dec i idx) as [-> | Hne].
        - rewrite Hread. eexists. reflexivity.
        - apply H3. lia. }
      split; [intros Hz; specialize (H4 Hz); lia |]. split.
      { intros Ho. destruct (H5 Ho) as [Hlt Hnone]. split; [lia |].
        rewrite <- Hnone. f_equal. lia. }
      split; [lia |]. split; [lia | lia].
    + cbn [fst].
      change (renders [_; _]) with 0%nat.
      change (reports [_; _]) with 1%nat.
      change (reads_attempted [_; _]) with 1%nat.
      change (executes [_; _]) with 0%nat.
      change (length (cells [_; _])) with 0%nat.
      rewrite Nat.add_0_r. repeat split; intros; try lia; assumption.
Qed.

(** ** The frame never goes negative *)

Lemma mul_SMOOTHING_nonneg s : nonneg s -> nonneg (F32.mul s SMOOTHING).
Proof.
  unfold nonneg. intros Hs. rewrite SMOOTHING_eq.
  destruct (nonneg_cases s Hs) as [[ss ->] | [-> | (ms & es & ->)]].
  - destruct ss; reflexivity.
  - reflexivity.
  - unfold F32.mul. rewrite SFmul_finite. cbn [xorb].
    pose proof (round_pos_nonneg F32.prec F32.emax (Zpos ms * 15099494) (es + -24)
                  ltac:(lia)) as Hnn.
    unfold mk_float. destruct (fst _) as [| q | q]; [reflexivity | | lia].
    destruct (_ <=? _); reflexivity.
Qed.

Lemma nonneg_not_nan a : nonneg a -> is_nan a = false.
Proof. unfold nonneg. destruct a; try reflexivity. discriminate. Qed.

Lemma fmax_nonneg x y : nonneg x -> nonneg (fmax x y).
Proof.
  intros Hx. unfold fmax.
  destruct (SFleb y x) eqn:Hyx; cbn [orb]; [exact Hx |].
  destruct (is_nan y) eqn:Hy; [exact Hx |].
  unfold nonneg in *. eapply SFleb_trans; [exact Hx |].
  apply SFleb_total; [exact Hy | apply nonneg_not_nan; exact Hx | exact Hyx].
Qed.

Lemma smooth_nonneg s x :
  F32.valid x = true -> nonneg s -> nonneg (smooth s x).
Proof.
  intros Hx Hs. rewrite smooth_eq by exact Hx.
  apply fmax_nonneg, mul_SMOOTHING_nonneg, Hs.
Qed.

Lemma Forall_lookup_total_float (P : float -> Prop) (l : list float) :
  P (S754_zero false) -> Forall P l -> forall i, P (l !!! i).
Proof.
  intros Hd Hl. induction Hl as [| a l Ha _ IH]; intros i.
  - destruct i; exact Hd.
  - destruct i as [| i]; [exact Ha | exact (IH i)].
Qed.

Lemma column_step_nonneg log10 out frame col :
  Forall nonneg (afAmplitudes frame) ->
  Forall nonneg (afAmplitudes (column_step log10 out frame col)).
Proof.
  intros Hf. unfold column_step. cbn [afAmplitudes].
  apply Forall_insert; [exact Hf |].
  apply smooth_nonneg; [apply float_of_double_valid |].
  apply Forall_lookup_total_float; [reflexivity | exact Hf].
Qed.

Lemma populate_nonneg log10 out frame :
  Forall nonneg (afAmplitudes frame) ->
  Forall nonneg (afAmplitudes (populate log10 out frame)).
Proof.
  unfold populate. generalize (seq 0 (Z.to_nat WORDLE_COLUMNS)) as cols.
  intros cols. revert frame.
  induction cols as [| c cols IH]; intros frame Hf; cbn [fold_left].
  - exact Hf.
  - apply IH, column_step_nonneg, Hf.
Qed.

(** ** Decay *)

(** The float just below a positive canonical float with mantissa at
    least 2: mantissa and exponent. *)
Lemma pred_canonical ms es :
  F32.valid (S754_finite false ms es) = true -> 2 <= Zpos ms ->
  exists mt et,
    F32.valid (S754_finite false mt et) = true /\
    SFltb (S754_finite false mt et) (S754_finite false ms es) = true /\
    ((et = es /\ Zpos mt = Zpos ms - 1) \/
     (et = es - 1 /\ Zpos mt = 2 ^ 24 - 1 /\ Zpos ms = 2 ^ 23)).
Proof.
  intros Hv Hms. destruct (F32_canonical false ms es Hv) as (Hd & He & Hc).
  pose proof (digits2_pos_bounds ms) as [Hlo Hhi].
  assert (Hlt24 : Zpos ms < 2 ^ 24).
  { eapply Z.lt_le_trans; [exact Hhi |]. apply Z.pow_le_mono_r; lia. }
  unfold fexp, emin in Hc.
  destruct (Z.eq_dec es (-149)) as [Hes | Hes];
    [| destruct (Z.eq_dec (Zpos ms) (2 ^ 23)) as [Hm | Hm]].
  - (* lowest exponent: one unit less *)
    destruct (Zpos ms - 1) as [| mt | mt] eqn:Hmt; try lia.
    exists mt, es. split; [| split; [| left; split; [reflexivity | lia]]].
    + unfold F32.valid. cbn [valid_binary]. unfold bounded, canonical_mantissa.
      apply andb_true_intro. split; [apply Z.eqb_eq | apply Z.leb_le].
      * assert (Zdigits2 (Zpos mt) <= 24) by (apply Zdigits2_ub; lia).
        pose proof (Zdigits2_pos_bounds (Zpos mt) ltac:(lia)) as [? _].
        change (Zpos (digits2_pos mt)) with (Zdigits2 (Zpos mt)).
        unfold fexp, emin, F32.prec, F32.emax. lia.
      * unfold F32.prec, F32.emax. lia.
    + unfold SFltb. rewrite SFcompare_finite. unfold lex_compare.
      rewrite Z.compare_refl.
      change (Pos.compare_cont Eq mt ms) with (Pos.compare mt ms).
      replace (Pos.compare mt ms) with Lt; [reflexivity |].
      symmetry. apply Pos.compare_lt_iff. lia.
  - (* a power of two: the largest mantissa one exponent down *)
    exists (Z.to_pos (2 ^ 24 - 1)), (es - 1).
    split; [| split; [| right; split; [reflexivity | split; [reflexivity | exact Hm]]]].
    + unfold F32.valid. cbn [valid_binary]. unfold bounded, canonical_mantissa.
      apply andb_true_intro. split; [apply Z.eqb_eq | apply Z.leb_le].
      * change (Zpos (digits2_pos (Z.to_pos (2 ^ 24 - 1)))) with 24.
        unfold fexp, emin, F32.prec, F32.emax. lia.
      * unfold F32.prec, F32.emax. lia.
    + unfold SFltb. rewrite SFcompare_finite. unfold lex_compare.
      replace (es - 1 ?= es) with Lt; [reflexivity |].
      symmetry. apply Z.compare_lt_iff. lia.
  - (* otherwise: one unit less, same exponent *)
    assert (Hd24 : Zpos (digits2_pos ms) = 24) by lia.
    rewrite Hd24 in Hlo. change (24 - 1) with 23 in Hlo.
    destruct (Zpos ms - 1) as [| mt | mt] eqn:Hmt; try lia.
    exists mt, es. split; [| split; [| left; split; [reflexivity | lia]]].
    + unfold F32.valid. cbn [valid_binary]. unfold bounded, canonical_mantissa.
      apply andb_true_intro. split; [apply Z.eqb_eq | apply Z.leb_le].
      * assert (Zdigits2 (Zpos mt) <= 24) by (apply Zdigits2_ub; lia).
        assert (22 < Zdigits2 (Zpos mt)) by (apply Zdigits2_lb; lia).
        change (Zpos (digits2_pos mt)) with (Zdigits2 (Zpos mt)).
        assert (23 < Zdigits2 (Zpos mt)).
        { apply Zdigits2_lb; [lia |]. lia. }
        unfold fexp, emin, F32.prec, F32.emax. lia.
      * unfold F32.prec, F32.emax. lia.
    + unfold SFltb. rewrite SFcompare_finite. unfold lex_compare.
      rewrite Z.compare_refl.
      change (Pos.compare_cont Eq mt ms) with (Pos.compare mt ms).
      replace (Pos.compare mt ms) with Lt; [reflexivity |].
      symmetry. apply Pos.compare_lt_iff. lia.
Qed.

Lemma decay_strict ms es :
  F32.valid (S754_finite false ms es) = true ->
  SFleb (S754_finite false 10 (-149)) (S754_finite false ms es) = true ->
  SFltb (F32.mul (S754_finite false ms es) SMOOTHING) (S754_finite false ms es)
  = true.
Proof.
  intros Hv Hten. destruct (F32_canonical false ms es Hv) as (Hd & He & Hc).
  pose proof (digits2_pos_bounds ms) as [Hlo Hhi].
  assert (Hms : 10 <= Zpos ms).
  { unfold SFleb in Hten. rewrite SFcompare_finite in Hten.
    unfold lex_compare in Hten.
    destruct (Z.compare_spec (-149) es) as [Heq | Hlt | Hgt]; [| | lia].
    - change (Pos.compare_cont Eq 10 ms) with (Pos.compare 10 ms) in Hten.
      destruct (Pos.compare_spec 10 ms); try discriminate; lia.
    - unfold fexp, emin in Hc.
      assert (Hd24 : Zpos (digits2_pos ms) = 24) by lia.
      rewrite Hd24 in Hlo. change (2 ^ (24 - 1)) with 8388608 in Hlo. lia. }
  destruct (pred_canonical ms es Hv ltac:(lia))
    as (mt & et & HvT & HltT & Hcases).
  eapply SFleb_ltb_trans; [| exact HltT].
  rewrite SMOOTHING_eq. unfold F32.mul. rewrite SFmul_finite. cbn [xorb].
  rewrite <- (mk_float_canonical F32.prec F32.emax false mt et HvT).
  apply valid_finite_canonical in HvT as [HcT _].
  apply mk_float_le.
  - apply round_pos_nonneg. lia.
  - apply round_pos_nonneg. lia.
  - apply round_pos_mono; try lia; try reflexivity.
    + apply aligned_mul_r; [reflexivity | lia |]. apply Z.leb_le. reflexivity.
    + unfold aligned. lia.
    + unfold val_le.
      destruct Hcases as [[-> Hmt] | (-> & Hmt & Hm23)].
      * rewrite Z.min_l by lia.
        rewrite Z.sub_diag, Z.pow_0_r.
        replace (es - (es + -24)) with 24 by lia.
        rewrite Hmt. change (2 ^ 24) with 16777216. lia.
      * rewrite Z.min_l by lia.
        rewrite Z.sub_diag, Z.pow_0_r.
        replace (es - 1 - (es + -24)) with 23 by lia.
        rewrite Hmt, Hm23. apply Z.leb_le. reflexivity.
Qed.

(** ** The grid *)

Lemma cells_printWordle frame : cells (printWordle frame) = grid frame.
Proof. reflexivity. Qed.

Lemma grid_lookup frame r c :
  (r < 6)%nat -> (c < 5)%nat ->
  grid frame !! (5 * r + c)%nat = Some (acPalette !!! cell_index frame r c).
Proof.
  intros Hr Hc.
  assert (Hrs : (r = 0 \/ r = 1 \/ r = 2 \/ r = 3 \/ r = 4 \/ r = 5)%nat) by lia.
  assert (Hcs : (c = 0 \/ c = 1 \/ c = 2 \/ c = 3 \/ c = 4)%nat) by lia.
  destruct Hrs as [-> | [-> | [-> | [-> | [-> | ->]]]]];
    destruct Hcs as [-> | [-> | [-> | [-> | ->]]]]; reflexivity.
Qed.

(** [6 / 6] is exactly [1.0f], and multiplying by it changes nothing. *)
Lemma mul_one_l a :
  F32.valid a = true -> F32.mul (S754_finite false 8388608 (-23)) a = a.
Proof.
  intros Hv. destruct a as [s | s | | s m e]; try reflexivity.
  unfold F32.mul. rewrite SFmul_finite. cbn [xorb].
  pose proof Hv as Hv'.
  apply valid_finite_canonical in Hv' as [Hc Hb].
  pose proof (round_pos_exact F32.prec F32.emax (Zpos m) e 23
                ltac:(lia) ltac:(lia) Hc) as He.
  replace (Zpos 8388608 * Zpos m) with (Zpos m * 2 ^ 23)
    by (change (2 ^ 23) with 8388608; lia).
  replace (-23 + e) with (e - 23) by lia.
  rewrite He. unfold mk_float. cbn [fst snd].
  replace (e <=? F32.emax - F32.prec) with true
    by (symmetry; apply Z.leb_le; lia).
  reflexivity.
Qed.

Lemma cell_index_bottom frame c :
  F32.valid (afAmplitudes frame !!! c) = true ->
  cell_index frame 5 c = REMAP (afAmplitudes frame !!! c).
Proof.
  intros Hv. unfold cell_index.
  destruct fAttenuation_values as (_ & _ & _ & _ & _ & ->).
  rewrite mul_one_l by exact Hv. reflexivity.
Qed.

(** ** Black columns *)

Ltac float_lookups :=
  change (@lookup_total nat spec_float (list float))
    with (@lookup_total nat float (list float)) in *.

Lemma half_eq : afAmplitudeBrackets !!! 1%nat = S754_finite false 8388608 (-24).
Proof. reflexivity. Qed.

Lemma REMAP_zero_iff x :
  REMAP x = 0%nat <-> SFltb x (afAmplitudeBrackets !!! 1%nat) = true.
Proof.
  unfold REMAP. destruct (SFltb x (afAmplitudeBrackets !!! 1%nat)).
  - split; reflexivity.
  - destruct (SFltb x _); split; discriminate.
Qed.

Lemma fAttenuation_finite r :
  (r < 6)%nat ->
  exists m e, fAttenuation r = S754_finite false m e /\ 2 ^ 23 <= Zpos m.
Proof.
  intros Hr.
  destruct fAttenuation_values as (H0 & H1 & H2 & H3 & H4 & H5).
  assert (Hrs : (r = 0 \/ r = 1 \/ r = 2 \/ r = 3 \/ r = 4 \/ r = 5)%nat) by lia.
  destruct Hrs as [-> | [-> | [-> | [-> | [-> | ->]]]]];
    rewrite ?H0, ?H1, ?H2, ?H3, ?H4, ?H5;
    eexists _, _; (split; [reflexivity | apply Z.leb_le; reflexivity]).
Qed.

(** A negative amplitude stays below every bracket in every row. *)
Lemma attenuated_negative r a :
  (r < 6)%nat -> is_nan a = false -> SFleb (S754_zero false) a = false ->
  REMAP (F32.mul (fAttenuation r) a) = 0%nat.
Proof.
  intros Hr Hn Hneg. destruct (fAttenuation_finite r Hr) as (m & e & -> & _).
  apply REMAP_zero_iff. rewrite half_eq.
  destruct a as [[] | [] | | [] ma ea]; try discriminate; try reflexivity.
  unfold F32.mul. rewrite SFmul_finite. cbn [xorb].
  pose proof (round_pos_nonneg F32.prec F32.emax (Zpos m * Zpos ma) (e + ea)
                ltac:(lia)) as Hnn.
  unfold mk_float. destruct (fst _) as [| q | q]; [reflexivity | | lia].
  destruct (_ <=? _); reflexivity.
Qed.

Lemma column_black_iff frame c :
  F32.valid (afAmplitudes frame !!! c) = true ->
  (forall r, (r < 6)%nat -> cell_index frame r c = 0%nat) <->
  SFltb (afAmplitudes frame !!! c) (afAmplitudeBrackets !!! 1%nat) = true.
Proof.
  float_lookups. intros Hv. split.
  - intros H. apply REMAP_zero_iff. rewrite <- (cell_index_bottom frame c Hv).
    apply H. lia.
  - intros Hlt r Hr.
    destruct (SFleb (S754_zero false) (afAmplitudes frame !!! c)) eqn:Hnn.
    + apply REMAP_zero_iff in Hlt.
      pose proof (REMAP_mono _ _
                    (attenuated_le (afAmplitudes frame !!! c) r 5 Hnn
                       ltac:(lia) ltac:(lia))) as Hle.
      destruct fAttenuation_values as (_ & _ & _ & _ & _ & H5).
      rewrite H5, mul_one_l in Hle by exact Hv.
      unfold cell_index. float_lookups. lia.
    + unfold cell_index. float_lookups. apply attenuated_negative; [exact Hr | | exact Hnn].
      destruct (afAmplitudes frame !!! c); try reflexivity. discriminate Hlt.
Qed.

Lemma palette_black_inj i :
  (i < 3)%nat -> acPalette !!! i = acPalette !!! 0%nat -> i = 0%nat.
Proof.
  intros Hi. assert (Hs : (i = 0 \/ i = 1 \/ i = 2)%nat) by lia.
  destruct Hs as [-> | [-> | ->]]; [reflexivity | discriminate | discriminate].
Qed.

(** ** Louder is never shorter *)

(** On canonical positive floats the order of [SFcompare] is the order of
    the values. *)
Lemma canonical_leb_val_le ma ea mb eb :
  F32.valid (S754_finite false ma ea) = true ->
  F32.valid (S754_finite false mb eb) = true ->
  SFleb (S754_finite false ma ea) (S754_finite false mb eb) = true ->
  val_le (Zpos ma) ea (Zpos mb) eb.
Proof.
  intros Ha Hb Hle. unfold SFleb in Hle. rewrite SFcompare_finite in Hle.
  unfold lex_compare in Hle. unfold val_le.
  destruct (Z.compare_spec ea eb) as [-> | Hlt | Hgt]; [| | discriminate Hle].
  - rewrite Z.min_id, Z.sub_diag, Z.pow_0_r.
    change (Pos.compare_cont Eq ma mb) with (Pos.compare ma mb) in Hle.
    destruct (Pos.compare_spec ma mb); try discriminate; lia.
  - destruct (F32_canonical _ _ _ Ha) as (Hda & Hea & _).
    destruct (F32_canonical _ _ _ Hb) as (Hdb & Heb & Hcb).
    pose proof (digits2_pos_bounds ma) as [_ Hhi].
    pose proof (digits2_pos_bounds mb) as [Hlo _].
    unfold fexp, emin in Hcb.
    assert (Hd24 : Zpos (digits2_pos mb) = 24) by lia.
    rewrite Hd24 in Hlo. change (2 ^ (24 - 1)) with 8388608 in Hlo.
    assert (Hma : Zpos ma < 2 ^ 24).
    { eapply Z.lt_le_trans; [exact Hhi |]. apply Z.pow_le_mono_r; lia. }
    change (2 ^ 24) with 16777216 in Hma.
    rewrite Z.min_l, Z.sub_diag, Z.pow_0_r by lia.
    assert (Hp : 2 ^ 1 <= 2 ^ (eb - ea)) by (apply Z.pow_le_mono_r; lia).
    change (2 ^ 1) with 2 in Hp. nia.
Qed.

Lemma attenuated_mono r a b :
  (r < 6)%nat -> F32.valid a = true -> F32.valid b = true ->
  SFleb (S754_zero false) a = true -> SFleb a b = true ->
  SFleb (F32.mul (fAttenuation r) a) (F32.mul (fAttenuation r) b) = true.
Proof.
  intros Hr Ha Hb Hnn Hle.
  destruct (fAttenuation_finite r Hr) as (m & e & -> & Hm).
  destruct (nonneg_cases a Hnn) as [[sa ->] | [-> | (ma & ea & ->)]].
  - (* the product with a zero is a zero *)
    destruct b as [sb | [] | | [] mb eb]; try discriminate Hle;
      try (destruct sa, sb; reflexivity); try (destruct sa; reflexivity).
    unfold F32.mul. rewrite SFmul_finite. cbn [xorb SFmul].
    pose proof (round_pos_nonneg F32.prec F32.emax (Zpos m * Zpos mb) (e + eb)
                  ltac:(lia)) as Hq.
    unfold mk_float. destruct (fst _) as [| q | q]; [| | lia].
    + destruct sa; reflexivity.
    + destruct (_ <=? _); destruct sa; reflexivity.
  - destruct b as [sb | [] | | [] mb eb]; try discriminate Hle. reflexivity.
  - destruct b as [sb | [] | | [] mb eb]; try discriminate Hle.
    + (* b is plus infinity *)
      unfold F32.mul. rewrite SFmul_finite. cbn [xorb SFmul].
      pose proof (round_pos_nonneg F32.prec F32.emax (Zpos m * Zpos ma) (e + ea)
                    ltac:(lia)) as Hq.
      unfold mk_float. destruct (fst _) as [| q | q]; [reflexivity | | lia].
      destruct (_ <=? _); reflexivity.
    + unfold F32.mul. rewrite !SFmul_finite. cbn [xorb].
      apply mk_float_le.
      * apply round_pos_nonneg. lia.
      * apply round_pos_nonneg. lia.
      * apply round_pos_mono; try lia; try reflexivity.
        -- apply aligned_mul_l; [reflexivity | exact Hm | lia].
        -- apply aligned_mul_l; [reflexivity | exact Hm | lia].
        -- rewrite !(Z.mul_comm (Zpos m)), !(Z.add_comm e).
           apply val_le_mul_r; [lia |].
           apply canonical_leb_val_le; assumption.
Qed.

(** ** The smoothing assignment on NaN and on a louder reading *)

Lemma mul_SMOOTHING_not_nan x :
  is_nan x = false -> is_nan (F32.mul x SMOOTHING) = false.
Proof.
  rewrite SMOOTHING_eq. destruct x as [s | s | | s m e]; try reflexivity.
  - discriminate.
  - intros _. apply SFmul_finite_not_nan.
Qed.

Lemma SFltb_not_leb x y : SFltb x y = true -> SFleb y x = false.
Proof.
  intros Hlt. destruct (SFleb y x) eqn:Hle; [| reflexivity].
  pose proof (SFleb_ltb_trans _ _ _ Hle Hlt) as Hyy.
  assert (Hn : is_nan y = false) by (destruct y; try reflexivity; discriminate Hle).
  pose proof (SFleb_antisym y y (SFleb_refl y Hn) (SFleb_refl y Hn)) as He.
  unfold SFltb in Hyy. rewrite He in Hyy. discriminate Hyy.
Qed.

(** ** What the sampler reads of the transform's output *)

Lemma aui32FreqBins_eq : aui32FreqBins = [25; 76; 127; 178; 229].
Proof. vm_compute. reflexivity. Qed.

Lemma fAmplitude_reads log10 out col :
  let b := Z.to_nat (aui32FreqBins !!! col) in
  fAmplitude log10 out col
  = float_of_double
      (log10 (F64.add (F64.mul (fst (out b)) (fst (out b)))
                      (F64.mul (fst (out (b + 1)%nat)) (fst (out (b + 1)%nat))))).
Proof.
  intros b. unfold fAmplitude, subscript, addr_of, deref. cbn [buffer offset].
  fold b. rewrite Nat.add_0_r. reflexivity.
Qed.

Lemma bin_in_range col :
  (Z.to_nat (aui32FreqBins !!! col) + 1 < Z.to_nat (BUFSIZE / 2))%nat.
Proof.
  rewrite aui32FreqBins_eq. change (Z.to_nat (BUFSIZE / 2)) with 512%nat.
  do 5 (destruct col as [| col]; [vm_compute; lia |]).
  vm_compute; lia.
Qed.

Lemma fAmplitude_local log10 out out' col :
  (forall k, (k < Z.to_nat (BUFSIZE / 2))%nat -> fst (out k) = fst (out' k)) ->
  fAmplitude log10 out col = fAmplitude log10 out' col.
Proof.
  intros H. rewrite !fAmplitude_reads. cbn zeta.
  pose proof (bin_in_range col) as Hb.
  rewrite !(H (Z.to_nat (aui32FreqBins !!! col))) by lia.
  rewrite !(H (Z.to_nat (aui32FreqBins !!! col) + 1)%nat) by lia.
  reflexivity.
Qed.

Lemma populate_local log10 out out' frame :
  (forall k, (k < Z.to_nat (BUFSIZE / 2))%nat -> fst (out k) = fst (out' k)) ->
  populate log10 out frame = populate log10 out' frame.
Proof.
  intros H. unfold populate. generalize (seq 0 (Z.to_nat WORDLE_COLUMNS)).
  intros cols. revert frame.
  induction cols as [| c cols IH]; intros frame; [reflexivity |].
  cbn [fold_left]. unfold column_step at 2 4.
  rewrite (fAmplitude_local log10 out out' c H). apply IH.
Qed.

Lemma capture_loop_local log10 fftw fftw' reads n :
  (forall buf k, (k < Z.to_nat (BUFSIZE / 2))%nat ->
     fst (fftw buf k) = fst (fftw' buf k)) ->
  forall idx frame,
    capture_loop log10 fftw reads n idx frame
    = capture_loop log10 fftw' reads n idx frame.
Proof.
  intros H. induction n as [| n IH]; intros idx frame; [reflexivity |].
  cbn [capture_loop]. destruct (reads idx) as [buf |]; [| reflexivity].
  rewrite (populate_local log10 _ (fftw' (map double_of_float buf)) frame)
    by (intros k Hk; apply H; exact Hk).
  rewrite IH. reflexivity.
Qed.

(** ** A constant magnitude, cycle after cycle *)

Lemma settle_succ m s n : settle m s (S n) = smooth (settle m s n) m.
Proof. reflexivity. Qed.

Lemma settle_succ_r m s n : settle m s (S n) = settle m (smooth s m) n.
Proof.
  induction n as [| n IH]; [reflexivity |].
  rewrite (settle_succ m s (S n)), IH. reflexivity.
Qed.

Lemma smooth_valid s m : F32.valid (smooth s m) = true.
Proof. unfold smooth. apply float_of_double_valid. Qed.

Lemma smooth_nan_state s m :
  F32.valid m = true -> is_nan s = true -> smooth s m = m.
Proof.
  intros Hm Hs. rewrite smooth_eq by exact Hm.
  destruct s; try discriminate Hs.
  rewrite SMOOTHING_eq. unfold fmax. destruct m; reflexivity.
Qed.

Lemma SFleb_false_ltb x y :
  SFleb y x = true -> SFleb x y = false -> SFltb y x = true.
Proof.
  unfold SFleb, SFltb.
  destruct x as [sx | sx | | sx mx ex], y as [sy | sy | | sy my ey];
    try destruct sx; try destruct sy; cmp_solve.
Qed.

(** At or below a magnitude [m >= 0] the state is [m] from the next cycle
    on. *)
Lemma settle_below s m n :
  F32.valid s = true -> F32.valid m = true ->
  SFleb (S754_zero false) m = true -> SFleb s m = true ->
  SFeqb (settle m s (S n)) m = true /\
  (is_zero m = false -> settle m s (S n) = m).
Proof.
  intros Hs Hm Hm0 Hsm.
  destruct (smooth_iter_settles s m n Hs Hm Hm0 Hsm) as [Hv Hc].
  fold (settle m s (S n)) in Hv, Hc. split.
  - unfold SFeqb. rewrite Hc. reflexivity.
  - intros Hz. apply SFcompare_Eq_eq; assumption.
Qed.

(** From a state at or above [m >= 0] the state never rises and never
    drops below [m]. *)
Lemma settle_above s m :
  F32.valid s = true -> F32.valid m = true ->
  SFleb (S754_zero false) m = true -> SFleb m s = true ->
  forall n,
    F32.valid (settle m s n) = true /\
    SFleb m (settle m s n) = true /\
    SFleb (settle m s (S n)) (settle m s n) = true.
Proof.
  intros Hs Hm Hm0 Hms.
  assert (Hstep : forall t, F32.valid t = true -> SFleb m t = true ->
            SFleb m (smooth t m) = true /\ SFleb (smooth t m) t = true).
  { intros t Ht Hmt.
    assert (Hnt : nonneg t) by (eapply SFleb_trans; eassumption).
    pose proof (nonneg_not_nan m Hm0) as Hnm.
    pose proof (mul_SMOOTHING_not_nan t (nonneg_not_nan t Hnt)) as Hnx.
    rewrite smooth_eq by exact Hm.
    destruct (fmax_spec (F32.mul t SMOOTHING) m) as [Hor Hub].
    destruct (Hub Hnx Hnm) as [_ Hge]. split; [exact Hge |].
    destruct Hor as [-> | ->]; [| exact Hmt].
    apply mul_SMOOTHING_le; [exact Ht | exact Hnt |].
    apply SFleb_refl, nonneg_not_nan, Hnt. }
  assert (Hinv : forall n, F32.valid (settle m s n) = true /\
                           SFleb m (settle m s n) = true).
  { induction n as [| n [IHv IHm]]; [split; assumption |].
    rewrite settle_succ. split; [apply smooth_valid |].
    apply Hstep; assumption. }
  intros n. destruct (Hinv n) as [Hv Hge].
  split; [exact Hv |]. split; [exact Hge |].
  rewrite settle_succ. apply Hstep; assumption.
Qed.

(** The order of the non-negative canonical floats is the order of their
    ranks. *)
Lemma rank_lt a b :
  F32.valid a = true -> F32.valid b = true -> nonneg a ->
  SFltb a b = true -> b <> S754_infinity false ->
  (rank a < rank b)%nat.
Proof.
  intros Ha Hb Hna Hlt Hinf.
  assert (Hpos : forall mb eb, F32.valid (S754_finite false mb eb) = true ->
                   0 < (eb + 149) * 2 ^ 24 + Zpos mb).
  { intros mb eb Hv. destruct (F32_canonical _ _ _ Hv) as (_ & He & _).
    change (2 ^ 24) with 16777216. lia. }
  destruct (nonneg_cases a Hna) as [[sa ->] | [-> | (ma & ea & ->)]].
  - destruct b as [sb | [] | | [] mb eb]; try discriminate Hlt;
      try congruence.
    cbn [rank]. pose proof (Hpos mb eb Hb). lia.
  - destruct b as [sb | [] | | [] mb eb]; discriminate Hlt.
  - destruct b as [sb | [] | | [] mb eb]; try discriminate Hlt;
      try congruence.
    cbn [rank]. pose proof (Hpos ma ea Ha). pose proof (Hpos mb eb Hb).
    destruct (F32_canonical _ _ _ Ha) as (Hda & Hea & _).
    pose proof (digits2_pos_bounds ma) as [_ Hhi].
    assert (Hma : Zpos ma < 2 ^ 24).
    { eapply Z.lt_le_trans; [exact Hhi |]. apply Z.pow_le_mono_r; lia. }
    change (2 ^ 24) with 16777216 in *.
    unfold SFltb in Hlt. rewrite SFcompare_finite in Hlt.
    unfold lex_compare in Hlt.
    destruct (Z.compare_spec ea eb) as [-> | He | He]; try discriminate Hlt.
    + change (Pos.compare_cont Eq ma mb) with (Pos.compare ma mb) in Hlt.
      destruct (Pos.compare_spec ma mb); try discriminate Hlt. lia.
    + lia.
Qed.

(** One cycle from a state above [m >= 10 * 2^-149]: the next state is
    strictly lower. *)
Lemma smooth_lowers s m :
  F32.valid s = true -> F32.valid m = true ->
  SFleb (S754_finite false 10 (-149)) m = true ->
  is_nan s = false -> SFleb s m = false -> s <> S754_infinity false ->
  nonneg (smooth s m) /\ SFltb (smooth s m) s = true.
Proof.
  intros Hs Hm Hten Hns Hnle Hinf.
  assert (Hm0 : nonneg m)
    by (eapply SFleb_trans; [| exact Hten]; reflexivity).
  pose proof (SFleb_total s m Hns (nonneg_not_nan m Hm0) Hnle) as Hms.
  pose proof (SFleb_false_ltb s m Hms Hnle) as Hlt.
  assert (Hs0 : nonneg s) by (eapply SFleb_trans; eassumption).
  pose proof (SFleb_trans _ _ _ Hten Hms) as Htens.
  rewrite smooth_eq by exact Hm. split.
  - apply fmax_nonneg, mul_SMOOTHING_nonneg, Hs0.
  - destruct (fmax_spec (F32.mul s SMOOTHING) m) as [[-> | ->] _];
      [| exact Hlt].
    destruct (nonneg_cases s Hs0) as [[ss ->] | [-> | (ms & es & ->)]].
    + destruct ss; discriminate Htens.
    + congruence.
    + apply decay_strict; assumption.
Qed.

(** From every state other than plus infinity, a constant magnitude
    [m >= 10 * 2^-149] is reached, and kept, after at most [rank s + 1]
    cycles. *)
Lemma settle_reaches m :
  F32.valid m = true ->
  SFleb (S754_finite false 10 (-149)) m = true ->
  forall k s,
    (rank s < k)%nat -> F32.valid s = true -> s <> S754_infinity false ->
    exists N, (N <= S (rank s))%nat /\
              forall n, (N <= n)%nat -> settle m s n = m.
Proof.
  intros Hm Hten.
  assert (Hm0 : nonneg m)
    by (eapply SFleb_trans; [| exact Hten]; reflexivity).
  assert (Hmz : is_zero m = false).
  { destruct m as [sm | | |]; try reflexivity. destruct sm; discriminate Hten. }
  assert (Hbelow : forall s, F32.valid s = true -> SFleb s m = true ->
            forall n, (1 <= n)%nat -> settle m s n = m).
  { intros s Hs Hsm n Hn. destruct n as [| n]; [lia |].
    apply (settle_below s m n Hs Hm Hm0 Hsm). exact Hmz. }
  induction k as [| k IH]; intros s Hk Hs Hinf; [lia |].
  destruct (is_nan s) eqn:Hns.
  { exists 1%nat. split; [lia |]. intros n Hn. destruct n as [| n]; [lia |].
    rewrite settle_succ_r, (smooth_nan_state s m Hm Hns).
    destruct n as [| n]; [reflexivity |].
    apply Hbelow; [exact Hm | | lia].
    apply SFleb_refl, nonneg_not_nan, Hm0. }
  destruct (SFleb s m) eqn:Hsm.
  { exists 1%nat. split; [lia |]. intros n Hn. apply Hbelow; assumption. }
  destruct (smooth_lowers s m Hs Hm Hten Hns Hsm Hinf) as [Hnn Hlt].
  assert (Hinf' : smooth s m <> S754_infinity false).
  { intros He. rewrite He in Hlt. destruct s as [? | [] | | [] ? ?];
      discriminate Hlt. }
  pose proof (rank_lt _ _ (smooth_valid s m) Hs Hnn Hlt Hinf) as Hr.
  destruct (IH (smooth s m) ltac:(lia) (smooth_valid s m) Hinf')
    as (N & HN & Hall).
  exists (S N). split; [lia |]. intros n Hn.
  destruct n as [| n]; [lia |].
  rewrite settle_succ_r. apply Hall. lia.
Qed.

(** With a negative magnitude the state +0 stays +0. *)
Lemma settle_negative m :
  F32.valid m = true -> SFltb m (S754_zero false) = true ->
  forall n, settle m (S754_zero false) n = S754_zero false.
Proof.
  intros Hm Hneg n. induction n as [| n IH]; [reflexivity |].
  rewrite settle_succ, IH, smooth_eq by exact Hm.
  rewrite SMOOTHING_eq. unfold fmax.
  replace (SFleb m (F32.mul (S754_zero false) (S754_finite false 15099494 (-24))))
    with true; [reflexivity |].
  destruct m as [[] | [] | | [] mm em]; try discriminate Hneg; reflexivity.
Qed.

(** * The claims *)

(** ** Bin Sampler *)

(** C1 (defect in the code).  The claim: each column's magnitude is
    log10(re^2 + im^2) of the one spectrum entry at the mapped index.
    The code: [*sDFTSample[1]] is the real part of the NEXT entry, so the
    magnitude is log10(re_k^2 + re_{k+1}^2) and the imaginary part is never
    read.  For the exact spectrum of a sine in bin 25 (column 0) the code
    yields minus infinity where the claimed formula yields 0; for the
    transform of a sampled sine window of that frequency the code yields
    less than -20 where the claimed formula yields more than 5. *)
Theorem C1_sampler_reads_next_real_part :
  (forall (log10 : double -> double) (out : nat -> fftw_complex) (col : nat),
     let k := Z.to_nat (aui32FreqBins !!! col) in
     fAmplitude log10 out col
     = float_of_double
         (log10 (F64.add (F64.mul (fst (out k)) (fst (out k)))
                         (F64.mul (fst (out (S k))) (fst (out (S k))))))) /\
  fAmplitude log10_coarse (tone_in_bin 25) 0 = S754_infinity true /\
  fAmplitude_claimed log10_coarse (tone_in_bin 25) 0 = S754_zero false /\
  (let out := dft_direct (map double_of_float (sine_window 25)) in
   SFltb (fAmplitude log10_coarse out 0) (F32.of_int (-20)) = true /\
   SFltb (F32.of_int 5) (fAmplitude_claimed log10_coarse out 0) = true).
Proof.
  split; [| split; [| split]].
  - intros log10 out col k. unfold fAmplitude, subscript, addr_of, deref.
    cbn [buffer offset]. fold k. rewrite Nat.add_0_r, Nat.add_1_r. reflexivity.
  - vm_compute. reflexivity.
  - vm_compute. reflexivity.
  - vm_compute. split; reflexivity.
Qed.

(** C2, as claimed, fails: with a [log10] that has its pole at zero, the
    sampler returns minus infinity on the spectrum of a silent window. *)
Lemma C2_clamp_counterexample :
  fAmplitude log10_coarse
    (dft_direct (map double_of_float silent_buffer)) 0 = S754_infinity true /\
  ~ (forall log10, log10_pole log10 ->
       forall out col, fAmplitude log10 out col <> S754_infinity true).
Proof.
  assert (H : fAmplitude log10_coarse
                (dft_direct (map double_of_float silent_buffer)) 0
              = S754_infinity true)
    by (vm_compute; reflexivity).
  split; [exact H |]. intros Hall.
  exact (Hall log10_coarse log10_coarse_pole _ 0%nat H).
Qed.

(** C2 (amended).  Nothing is clamped before the logarithm: on a spectrum
    whose entries are zero the sampler evaluates [log10] at +0 and returns
    minus infinity.  No error arises from it: a run whose reads all succeed
    reports nothing and exits with status 0, whatever the samples. *)
Theorem C2_zero_magnitude_not_clamped
    (log10 : double -> double) (fftw : list double -> nat -> fftw_complex)
    (reads : nat -> option (list float)) (out : nat -> fftw_complex)
    (col : nat) (argc : Z) :
  log10_pole log10 ->
  (forall k, is_zero (fst (out k)) = true /\ is_zero (snd (out k)) = true) ->
  (forall i, is_Some (reads i)) ->
  2 <= argc ->
  fAmplitude log10 out col = S754_infinity true /\
  snd (main log10 fftw reads argc true) = 0 /\
  reports (fst (main log10 fftw reads argc true)) = 0%nat.
Proof.
  intros Hpole Hz Hok Hargc. split.
  - apply fAmplitude_silence; [exact Hpole | intros k; apply Hz].
  - unfold main, main_reads.
    replace (argc <? 2) with false by (symmetry; apply Z.ltb_ge; lia).
    cbn [negb].
    pose proof (capture_loop_complete log10 fftw reads (Z.to_nat ui32NumReads)
                  0 sWordleFrame0 ltac:(intros i _; apply Hok)) as [_ Hrep].
    destruct (capture_loop _ _ _ _ _ _) as [tr final]. cbn [fst snd] in *.
    split; [reflexivity |].
    rewrite !reports_app, Hrep. reflexivity.
Qed.

Lemma C2_zero_magnitude_not_clamped_witness :
  log10_pole log10_coarse /\
  (forall k : nat, is_zero (fst (silent_spectrum k)) = true /\
                   is_zero (snd (silent_spectrum k)) = true) /\
  (forall i : nat, is_Some ((fun _ : nat => Some silent_buffer) i)) /\
  2 <= 2 /\
  fAmplitude log10_coarse silent_spectrum 3 = S754_infinity true /\
  snd (main log10_coarse dft_direct (fun _ => Some silent_buffer) 2 true) = 0 /\
  reports (fst (main log10_coarse dft_direct (fun _ => Some silent_buffer) 2 true))
  = 0%nat.
Proof.
  assert (H1 : log10_pole log10_coarse) by reflexivity.
  assert (H2 : forall k : nat, is_zero (fst (silent_spectrum k)) = true /\
                               is_zero (snd (silent_spectrum k)) = true)
    by (intros k; split; reflexivity).
  assert (H3 : forall i : nat, is_Some ((fun _ : nat => Some silent_buffer) i))
    by (intros i; exists silent_buffer; reflexivity).
  assert (H4 : 2 <= 2) by lia.
  split; [exact H1 |]. split; [exact H2 |]. split; [exact H3 |].
  split; [exact H4 |].
  exact (C2_zero_magnitude_not_clamped log10_coarse dft_direct
           (fun _ => Some silent_buffer) silent_spectrum 3%nat 2 H1 H2 H3 H4).
Defined.

(** ** Capture loop *)

(** C3 (defect in the code).  When the [k]-th of [n] configured reads
    fails, the failure is reported once, exactly [k - 1] grids have been
    rendered and the three resources are released, as claimed; but the
    process then executes [return 0], where the claim has a non-zero
    status, as the usage error and the failure to open the stream have
    (last two conjuncts). *)
Theorem C3_read_failure_exits_with_status_zero
    (log10 : double -> double) (fftw : list double -> nat -> fftw_complex)
    (reads : nat -> option (list float)) (n k : nat) (argc : Z) :
  2 <= argc -> (1 <= k <= n)%nat ->
  (forall i, (i < k - 1)%nat -> is_Some (reads i)) ->
  reads (k - 1)%nat = None ->
  let run := main_reads log10 fftw reads n argc true in
  snd run = 0 /\
  renders (fst run) = (k - 1)%nat /\
  reports (fst run) = 1%nat /\
  releases (fst run) = [psStream; psFFTWOutput; psFFTWPlan] /\
  snd (main_reads log10 fftw reads n 1 true) = 1 /\
  snd (main_reads log10 fftw reads n argc false) = 1.
Proof.
  intros Hargc Hk Hok Hfail run.
  assert (Hsib : snd (main_reads log10 fftw reads n 1 true) = 1 /\
                 snd (main_reads log10 fftw reads n argc false) = 1).
  { split; [reflexivity |]. unfold main_reads.
    replace (argc <? 2) with false by (symmetry; apply Z.ltb_ge; lia).
    reflexivity. }
  enough (Hrun : snd run = 0 /\ renders (fst run) = (k - 1)%nat /\
                 reports (fst run) = 1%nat /\
                 releases (fst run) = [psStream; psFFTWOutput; psFFTWPlan]).
  { destruct Hrun as (H1 & H2 & H3 & H4). repeat split; try assumption;
      apply Hsib. }
  unfold run, main_reads.
  replace (argc <? 2) with false by (symmetry; apply Z.ltb_ge; lia).
  cbn [negb].
  pose proof (capture_loop_failure log10 fftw reads (k - 1) n 0 sWordleFrame0
                ltac:(lia) ltac:(intros i Hi; apply Hok; lia) Hfail)
    as [Hren Hrep].
  pose proof (capture_loop_resources log10 fftw reads n 0 sWordleFrame0)
    as [_ Hrel].
  destruct (capture_loop _ _ _ _ _ _) as [tr final]. cbn [fst snd] in *.
  split; [reflexivity |].
  rewrite !renders_app, !reports_app, !releases_app, Hren, Hrep, Hrel.
  change (renders [c_setlocale; _; _; _]) with 0%nat.
  change (renders [c_pa_simple_free; _; _]) with 0%nat.
  change (reports [c_setlocale; _; _; _]) with 0%nat.
  change (reports [c_pa_simple_free; _; _]) with 0%nat.
  split; [lia |]. split; [lia |]. reflexivity.
Qed.

Lemma C3_read_failure_exits_with_status_zero_witness :
  2 <= 2 /\ (1 <= 3 <= 10)%nat /\
  (forall i, (i < 3 - 1)%nat -> is_Some (reads_then_fail 2 i)) /\
  reads_then_fail 2 (3 - 1)%nat = None /\
  snd (main_reads log10_coarse dft_direct (reads_then_fail 2) 10 2 true) = 0 /\
  renders (fst (main_reads log10_coarse dft_direct (reads_then_fail 2) 10 2 true))
  = (3 - 1)%nat /\
  reports (fst (main_reads log10_coarse dft_direct (reads_then_fail 2) 10 2 true))
  = 1%nat /\
  releases (fst (main_reads log10_coarse dft_direct (reads_then_fail 2) 10 2 true))
  = [psStream; psFFTWOutput; psFFTWPlan] /\
  snd (main_reads log10_coarse dft_direct (reads_then_fail 2) 10 1 true) = 1 /\
  snd (main_reads log10_coarse dft_direct (reads_then_fail 2) 10 2 false) = 1.
Proof.
  assert (H1 : 2 <= 2) by lia.
  assert (H2 : (1 <= 3 <= 10)%nat) by lia.
  assert (H3 : forall i, (i < 3 - 1)%nat -> is_Some (reads_then_fail 2 i)).
  { intros i Hi. unfold reads_then_fail.
    replace (i <? 2)%nat with true by (symmetry; apply Nat.ltb_lt; lia).
    exists silent_buffer. reflexivity. }
  assert (H4 : reads_then_fail 2 (3 - 1)%nat = None) by reflexivity.
  split; [exact H1 |]. split; [exact H2 |]. split; [exact H3 |].
  split; [exact H4 |].
  exact (C3_read_failure_exits_with_status_zero log10_coarse dft_direct
           (reads_then_fail 2) 10 3 2 H1 H2 H3 H4).
Defined.

(** C4, as claimed, fails: the resources are not released in the reverse
    of the order in which they were acquired. *)
Lemma C4_reverse_order_counterexample :
  let tr := fst (main log10_coarse dft_direct (reads_then_fail 0) 2 true) in
  acquisitions tr = [psStream; psFFTWOutput; psFFTWPlan] /\
  releases tr = [psStream; psFFTWOutput; psFFTWPlan] /\
  releases tr <> rev (acquisitions tr).
Proof.
  vm_compute. repeat split; try reflexivity. discriminate.
Qed.

(** C4 (amended).  On every way out of the read loop, by completing all
    reads or by a failed read, the stream, the FFTW output buffer and the
    FFTW plan are each released exactly once, by the last three calls of the
    program, in the order in which they were acquired. *)
Theorem C4_released_once_in_acquisition_order
    (log10 : double -> double) (fftw : list double -> nat -> fftw_complex)
    (reads : nat -> option (list float)) (n : nat) (argc : Z) :
  2 <= argc ->
  let tr := fst (main_reads log10 fftw reads n argc true) in
  acquisitions tr = [psStream; psFFTWOutput; psFFTWPlan] /\
  releases tr = acquisitions tr /\
  NoDup (releases tr) /\
  exists body,
    tr = body ++ [c_pa_simple_free; c_fftw_free; c_fftw_destroy_plan] /\
    releases body = [].
Proof.
  intros Hargc tr. unfold tr, main_reads.
  replace (argc <? 2) with false by (symmetry; apply Z.ltb_ge; lia).
  cbn [negb].
  pose proof (capture_loop_resources log10 fftw reads n 0 sWordleFrame0)
    as [Hacq Hrel].
  destruct (capture_loop _ _ _ _ _ _) as [loop_tr final]. cbn [fst] in *.
  rewrite !acquisitions_app, !releases_app, Hacq, Hrel.
  split; [reflexivity |]. split; [reflexivity |]. split.
  - cbn. repeat constructor; rewrite ?elem_of_cons, ?elem_of_nil;
      intuition discriminate.
  - exists ([c_setlocale; c_pa_simple_new true;
             c_fftw_alloc_complex; c_fftw_plan_dft_r2c_1d] ++ loop_tr).
    split; [rewrite <- app_assoc; reflexivity |].
    rewrite releases_app, Hrel. reflexivity.
Qed.

Lemma C4_released_once_in_acquisition_order_witness :
  2 <= 2 /\
  let tr := fst (main_reads log10_coarse dft_direct (reads_then_fail 2) 10 2 true) in
  acquisitions tr = [psStream; psFFTWOutput; psFFTWPlan] /\
  releases tr = acquisitions tr /\
  NoDup (releases tr) /\
  exists body,
    tr = body ++ [c_pa_simple_free; c_fftw_free; c_fftw_destroy_plan] /\
    releases body = [].
Proof.
  assert (H1 : 2 <= 2) by lia.
  split; [exact H1 |].
  exact (C4_released_once_in_acquisition_order log10_coarse dft_direct
           (reads_then_fail 2) 10 2 H1).
Defined.

(** ** Smoothing *)

(** C5.  One cycle replaces every column of the frame by
    [fmax(old * SMOOTHING, new magnitude)], and that value is the maximum
    of the two: it is one of them, it is at least both when neither is NaN,
    so it is the new magnitude when that is strictly larger and the decayed
    value when that is strictly larger, and it is the other one when one of
    them is NaN.  [SMOOTHING] is 0.9f, strictly between 0 and 1; and the
    loop changes the frame in no other way: a successful read continues
    with the populated frame, a failed read leaves the frame as it is. *)
Theorem C5_smoothing_update
    (log10 : double -> double) (fftw : list double -> nat -> fftw_complex)
    (reads : nat -> option (list float))
    (out : nat -> fftw_complex) (frame : WORDLE_FRAME) (col : nat) :
  length (afAmplitudes frame) = Z.to_nat WORDLE_COLUMNS ->
  (col < Z.to_nat WORDLE_COLUMNS)%nat ->
  let fDecayed := F32.mul (afAmplitudes frame !!! col) SMOOTHING in
  let fNew := fAmplitude log10 out col in
  afAmplitudes (populate log10 out frame) !! col
  = Some (fmax (F32.mul (afAmplitudes frame !!! col) SMOOTHING)
               (fAmplitude log10 out col)) /\
  (fmax fDecayed fNew = fDecayed \/ fmax fDecayed fNew = fNew) /\
  (is_nan fDecayed = false -> is_nan fNew = false ->
     SFleb fDecayed (fmax fDecayed fNew) = true /\
     SFleb fNew (fmax fDecayed fNew) = true) /\
  (SFltb fDecayed fNew = true -> fmax fDecayed fNew = fNew) /\
  (SFltb fNew fDecayed = true -> fmax fDecayed fNew = fDecayed) /\
  (is_nan fNew = true -> fmax fDecayed fNew = fDecayed) /\
  (is_nan fDecayed = true -> fmax fDecayed fNew = fNew) /\
  length (afAmplitudes (populate log10 out frame)) = Z.to_nat WORDLE_COLUMNS /\
  SMOOTHING = S754_finite false 15099494 (-24) /\
  SFltb (S754_zero false) SMOOTHING = true /\
  SFltb SMOOTHING (F32.of_int 1) = true /\
  (forall n idx,
     snd (capture_loop log10 fftw reads (S n) idx frame)
     = match reads idx with
       | Some buf =>
           snd (capture_loop log10 fftw reads n (S idx)
                  (populate log10 (fftw (map double_of_float buf)) frame))
       | None => frame
       end).
Proof.
  intros Hlen Hcol fDecayed fNew.
  destruct (fmax_spec fDecayed fNew) as [Hor Hub].
  split; [| split; [exact Hor | split; [exact Hub |]]].
  { rewrite populate_lookup by assumption.
    rewrite smooth_eq; [reflexivity |]. apply float_of_double_valid. }
  split; [| split; [| split; [| split]]].
  - intros Hlt. unfold fmax.
    assert (Hn : is_nan fNew = false)
      by (destruct fNew; try reflexivity; destruct fDecayed; discriminate Hlt).
    rewrite (SFltb_not_leb _ _ Hlt), Hn. reflexivity.
  - intros Hlt. unfold fmax.
    assert (Hle : SFleb fNew fDecayed = true).
    { unfold SFltb in Hlt. unfold SFleb.
      destruct (SFcompare fNew fDecayed) as [[] |]; try discriminate Hlt.
      reflexivity. }
    rewrite Hle. reflexivity.
  - intros Hn. unfold fmax. rewrite Hn, orb_true_r. reflexivity.
  - intros Hn. unfold fmax. destruct fDecayed; try discriminate Hn.
    destruct fNew; reflexivity.
  - split; [apply populate_length; exact Hlen |].
    split; [exact SMOOTHING_eq |].
    split; [vm_compute; reflexivity |]. split; [vm_compute; reflexivity |].
    intros n idx. cbn [capture_loop].
    destruct (reads idx) as [buf |]; [| reflexivity].
    destruct (capture_loop _ _ _ n (S idx) _) as [tr final]. reflexivity.
Qed.

(** At a frame of 3s and the spectrum of a cosine in bin 127, the bin of
    column 2: the decayed value is about 2.7, the magnitude about 5.42, and
    the column takes the magnitude. *)
Lemma C5_smoothing_update_witness :
  let frame := {| afAmplitudes := replicate 5 (F32.of_int 3) |} in
  let out := cosine_in_bin 127 in
  length (afAmplitudes frame) = Z.to_nat WORDLE_COLUMNS /\
  (2 < Z.to_nat WORDLE_COLUMNS)%nat /\
  F32.mul (afAmplitudes frame !!! 2%nat) SMOOTHING
  = S754_finite false 11324620 (-22) /\
  fAmplitude log10_coarse out 2 = S754_finite false 11363502 (-21) /\
  afAmplitudes (populate log10_coarse out frame) !! 2%nat
  = Some (fmax (F32.mul (afAmplitudes frame !!! 2%nat) SMOOTHING)
               (fAmplitude log10_coarse out 2)) /\
  fmax (F32.mul (afAmplitudes frame !!! 2%nat) SMOOTHING)
       (fAmplitude log10_coarse out 2)
  = S754_finite false 11363502 (-21).
Proof.
  intros frame out.
  assert (H1 : length (afAmplitudes frame) = Z.to_nat WORDLE_COLUMNS)
    by reflexivity.
  assert (H2 : (2 < Z.to_nat WORDLE_COLUMNS)%nat) by (vm_compute; lia).
  split; [exact H1 |]. split; [exact H2 |].
  split; [vm_compute; reflexivity |]. split; [vm_compute; reflexivity |].
  split; [| vm_compute; reflexivity].
  exact (proj1 (C5_smoothing_update log10_coarse dft_direct (reads_then_fail 0)
                  out frame 2 H1 H2)).
Defined.

(** ** Frequency bin table *)

(** C6.  The five entries of [aui32FreqBins] are 25, 76, 127, 178 and 229,
    all within [0, BUFSIZE / 2); so is the entry after each of them, which
    the sampler reads too.  They are the exact midpoints, and the exact
    midpoint stays within [0, N / 2) for every window size [N >= 2] and
    every positive column count. *)
Theorem C6_frequency_bins_in_range :
  aui32FreqBins = [25; 76; 127; 178; 229] /\
  length aui32FreqBins = Z.to_nat WORDLE_COLUMNS /\
  Forall (fun i => 0 <= i < BUFSIZE / 2) aui32FreqBins /\
  Forall (fun i => 0 <= i + 1 < BUFSIZE / 2) aui32FreqBins /\
  aui32FreqBins = map (midpoint_index BUFSIZE WORDLE_COLUMNS) [0; 1; 2; 3; 4] /\
  (forall N C X, 2 <= N -> 0 < C -> 0 <= X < C ->
     0 <= midpoint_index N C X < N / 2).
Proof.
  assert (H : aui32FreqBins = [25; 76; 127; 178; 229]) by (vm_compute; reflexivity).
  rewrite H. split; [reflexivity |]. split; [reflexivity |].
  split; [| split; [| split]].
  - repeat constructor; vm_compute; discriminate.
  - repeat constructor; vm_compute; discriminate.
  - reflexivity.
  - exact midpoint_index_range.
Qed.

Lemma C6_frequency_bins_in_range_witness :
  2 <= 2048 /\ 0 < 8 /\ 0 <= 7 < 8 /\
  0 <= midpoint_index 2048 8 7 < 2048 / 2.
Proof.
  assert (H1 : 2 <= 2048) by lia.
  assert (H2 : 0 < 8) by lia.
  assert (H3 : 0 <= 7 < 8) by lia.
  split; [exact H1 |]. split; [exact H2 |]. split; [exact H3 |].
  exact (proj2 (proj2 (proj2 (proj2 (proj2 C6_frequency_bins_in_range))))
           2048 8 7 H1 H2 H3).
Defined.

(** ** Display *)

(** C7.  If every window of the run is silence, then, for a [log10] with
    its pole at zero and a transform that maps silence to the zero spectrum,
    all 430 grids are rendered and each of their 30 cells is the first
    palette entry, the one for the lowest level. *)
Theorem C7_silence_renders_lowest_level
    (log10 : double -> double) (fftw : list double -> nat -> fftw_complex)
    (reads : nat -> option (list float)) (argc : Z) :
  log10_pole log10 -> fftw_silence fftw ->
  (forall i, exists buf,
     reads i = Some buf /\ Forall (fun v => is_zero v = true) buf) ->
  2 <= argc ->
  let tr := fst (main log10 fftw reads argc true) in
  renders tr = 430%nat /\
  cells tr = replicate (430 * 30) (acPalette !!! 0%nat) /\
  acPalette !! 0%nat = Some (acPalette !!! 0%nat).
Proof.
  intros Hpole Hfftw Hreads Hargc tr. unfold tr, main, main_reads.
  replace (argc <? 2) with false by (symmetry; apply Z.ltb_ge; lia).
  cbn [negb].
  assert (Hsilent : forall i buf, reads i = Some buf ->
                    Forall (fun v => is_zero v = true) buf).
  { intros i buf Hi. destruct (Hreads i) as (buf' & Hb & Hz).
    rewrite Hb in Hi. injection Hi as <-. exact Hz. }
  pose proof (capture_loop_silence log10 fftw reads Hpole Hfftw Hsilent
                (Z.to_nat ui32NumReads) 0) as Hcells.
  pose proof (capture_loop_complete log10 fftw reads (Z.to_nat ui32NumReads)
                0 sWordleFrame0) as [Hren _].
  { intros i _. destruct (Hreads i) as (buf & -> & _). eexists. reflexivity. }
  cbn zeta in Hcells.
  destruct (capture_loop _ _ _ _ _ _) as [loop_tr final]. cbn [fst] in *.
  rewrite !renders_app, !cells_app, Hcells, Hren.
  split; [reflexivity |]. split; [| reflexivity].
  change (Z.to_nat ui32NumReads) with 430%nat.
  cbn [cells omap app]. rewrite app_nil_r. f_equal.
Qed.

Lemma C7_silence_renders_lowest_level_witness :
  log10_pole log10_coarse /\ fftw_silence dft_direct /\
  (forall i : nat, exists buf,
     (fun _ : nat => Some silent_buffer) i = Some buf /\
     Forall (fun v => is_zero v = true) buf) /\
  2 <= 2 /\
  let tr := fst (main log10_coarse dft_direct (fun _ => Some silent_buffer) 2 true) in
  renders tr = 430%nat /\
  cells tr = replicate (430 * 30) (acPalette !!! 0%nat) /\
  acPalette !! 0%nat = Some (acPalette !!! 0%nat).
Proof.
  assert (H1 : log10_pole log10_coarse) by reflexivity.
  assert (H3 : forall i : nat, exists buf,
             (fun _ : nat => Some silent_buffer) i = Some buf /\
             Forall (fun v => is_zero v = true) buf).
  { intros i. exists silent_buffer. split; [reflexivity |].
    apply Forall_forall. intros v Hv.
    apply elem_of_replicate_inv in Hv. rewrite Hv. reflexivity. }
  assert (H4 : 2 <= 2) by lia.
  split; [exact H1 |]. split; [exact dft_direct_silence |].
  split; [exact H3 |]. split; [exact H4 |].
  exact (C7_silence_renders_lowest_level log10_coarse dft_direct
           (fun _ => Some silent_buffer) 2 H1 dft_direct_silence H3 H4).
Defined.

(** C8.  For an amplitude [a >= 0] the palette index of row [r], which is
    [REMAP (fAttenuation r * a)], does not decrease as [r] grows. *)
Theorem C8_palette_index_monotone_in_row (a : float) (r1 r2 : nat) :
  SFleb (S754_zero false) a = true ->
  (r1 <= r2)%nat -> (r2 < Z.to_nat WORDLE_ROWS)%nat ->
  (REMAP (F32.mul (fAttenuation r1) a) <= REMAP (F32.mul (fAttenuation r2) a))%nat.
Proof.
  intros Ha Hle Hr2. apply REMAP_mono. apply attenuated_le; assumption.
Qed.

Lemma C8_palette_index_monotone_in_row_witness :
  SFleb (S754_zero false) (F32.of_int 3) = true /\
  (0 <= 5)%nat /\ (5 < Z.to_nat WORDLE_ROWS)%nat /\
  (REMAP (F32.mul (fAttenuation 0) (F32.of_int 3))
   <= REMAP (F32.mul (fAttenuation 5) (F32.of_int 3)))%nat.
Proof.
  assert (H1 : SFleb (S754_zero false) (F32.of_int 3) = true) by reflexivity.
  assert (H2 : (0 <= 5)%nat) by lia.
  assert (H3 : (5 < Z.to_nat WORDLE_ROWS)%nat) by (vm_compute; lia).
  split; [exact H1 |]. split; [exact H2 |]. split; [exact H3 |].
  exact (C8_palette_index_monotone_in_row (F32.of_int 3) 0 5 H1 H2 H3).
Defined.

(** C9, as claimed, fails for a negative magnitude, which [log10] yields
    for a squared magnitude below 1.  The frame starts at +0, and with a
    constant negative magnitude [m] (-1, say) the state is +0 after every
    number of cycles: never equal to [m] and never [<= m].  Nor is a
    magnitude below 10 * 2^-149 always reached: with the constant
    magnitude +0 the state 3 has decayed to 4 * 2^-149 after 1000 cycles
    and stays there, since [4 * 2^-149 * 0.9f] rounds to [4 * 2^-149]. *)
Lemma C9_negative_magnitude_counterexample :
  afAmplitudes sWordleFrame0 = replicate 5 (S754_zero false) /\
  (forall m, F32.valid m = true -> SFltb m (S754_zero false) = true ->
     forall n,
       settle m (S754_zero false) n = S754_zero false /\
       SFeqb (settle m (S754_zero false) n) m = false /\
       SFleb (settle m (S754_zero false) n) m = false) /\
  (F32.valid (F32.of_int (-1)) = true /\
   SFltb (F32.of_int (-1)) (S754_zero false) = true) /\
  (forall n, settle (S754_zero false) (F32.of_int 3) (1000 + n)
             = S754_finite false 4 (-149)) /\
  SFeqb (S754_finite false 4 (-149)) (S754_zero false) = false.
Proof.
  split; [reflexivity |]. split; [| split; [split; reflexivity | split]].
  - intros m Hm Hneg n. rewrite (settle_negative m Hm Hneg n).
    split; [reflexivity |].
    destruct m as [[] | [] | | [] mm em]; try discriminate Hneg;
      split; reflexivity.
  - intros n. induction n as [| n IH]; [vm_compute; reflexivity |].
    rewrite Nat.add_succ_r, settle_succ, IH. vm_compute. reflexivity.
  - reflexivity.
Qed.

(** C9 (amended).  With a constant magnitude [m]:
    once the state is [<= m], where [m >= 0] or the state is [>= 0] as every
    state of the program is, the state compares equal to [m] after the next
    cycle and after every later one, and unless [m] is a zero it then is
    [m]; from a state [>= m >= 0] the state never rises and never drops
    below [m]; and if [m >= 10 * 2^-149], every state other than plus
    infinity leads to [m] within [rank s + 1] cycles and stays there. *)
Theorem C9_smoothing_settles_at_nonnegative_magnitude (s m : float) :
  F32.valid s = true -> F32.valid m = true ->
  (SFleb s m = true -> nonneg m \/ nonneg s ->
   forall n,
     SFeqb (settle m s (S n)) m = true /\
     (is_zero m = false -> settle m s (S n) = m)) /\
  (nonneg m -> SFleb m s = true ->
   forall n,
     SFleb m (settle m s n) = true /\
     SFleb (settle m s (S n)) (settle m s n) = true) /\
  (SFleb (S754_finite false 10 (-149)) m = true -> s <> S754_infinity false ->
   exists N, (N <= S (rank s))%nat /\
             forall n, (N <= n)%nat -> settle m s n = m).
Proof.
  intros Hs Hm. split; [| split].
  - intros Hsm Hnn n.
    assert (Hm0 : nonneg m).
    { destruct Hnn as [Hm0 | Hs0]; [exact Hm0 |].
      eapply SFleb_trans; eassumption. }
    apply settle_below; assumption.
  - intros Hm0 Hms n.
    destruct (settle_above s m Hs Hm Hm0 Hms n) as (_ & Hge & Hle).
    split; assumption.
  - intros Hten Hinf.
    apply (settle_reaches m Hm Hten (S (rank s)) s); [lia | exact Hs | exact Hinf].
Qed.

(** From the state 3 with the constant magnitude 1: about 1.046 after ten
    cycles, 1 after eleven. *)
Lemma C9_smoothing_settles_at_nonnegative_magnitude_witness :
  let s := F32.of_int 3 in
  let m := F32.of_int 1 in
  F32.valid s = true /\ F32.valid m = true /\
  settle m s 10 = S754_finite false 8774777 (-23) /\
  settle m s 11 = m /\
  (SFleb s m = true -> nonneg m \/ nonneg s ->
   forall n,
     SFeqb (settle m s (S n)) m = true /\
     (is_zero m = false -> settle m s (S n) = m)) /\
  (nonneg m -> SFleb m s = true ->
   forall n,
     SFleb m (settle m s n) = true /\
     SFleb (settle m s (S n)) (settle m s n) = true) /\
  (SFleb (S754_finite false 10 (-149)) m = true -> s <> S754_infinity false ->
   exists N, (N <= S (rank s))%nat /\
             forall n, (N <= n)%nat -> settle m s n = m).
Proof.
  intros s m.
  assert (H1 : F32.valid s = true) by reflexivity.
  assert (H2 : F32.valid m = true) by reflexivity.
  split; [exact H1 |]. split; [exact H2 |].
  split; [vm_compute; reflexivity |]. split; [vm_compute; reflexivity |].
  exact (C9_smoothing_settles_at_nonnegative_magnitude s m H1 H2).
Defined.

(** C10.  [REMAP] yields 0, 1 or 2 on every [float]: 2 on NaN and on plus
    infinity, 0 on minus infinity; so the palette is never indexed out of
    bounds and every character [printWordle] writes is a palette entry. *)
Theorem C10_REMAP_within_palette :
  (forall X : float,
     (REMAP X < length acPalette)%nat /\ is_Some (acPalette !! REMAP X)) /\
  REMAP S754_nan = 2%nat /\
  REMAP (S754_infinity false) = 2%nat /\
  REMAP (S754_infinity true) = 0%nat /\
  (forall frame c, elem_of c (cells (printWordle frame)) -> elem_of c acPalette).
Proof.
  assert (Hin : forall X : float, elem_of (acPalette !!! REMAP X) acPalette).
  { intros X. apply list_elem_of_lookup_total_2. apply REMAP_bound. }
  split; [| split; [| split; [| split]]]; try reflexivity.
  - intros X. pose proof (REMAP_bound X) as Hb. split; [exact Hb |].
    apply lookup_lt_is_Some. exact Hb.
  - intros frame c Hc. apply list_elem_of_omap in Hc as (x & Hx & Hxc).
    destruct x; try discriminate. injection Hxc as ->.
    unfold printWordle in Hx. apply elem_of_app in Hx as [Hx | Hx].
    + apply list_elem_of_In, in_concat in Hx as (row & Hrow & Hx).
      apply in_map_iff in Hrow as (r & <- & _).
      destruct Hx as [Hx | Hx]; [discriminate |].
      apply in_map_iff in Hx as (col & Hx & _).
      injection Hx as <-. apply Hin.
    + apply elem_of_cons in Hx as [Hx | Hx]; [discriminate |].
      inversion Hx.
Qed.

Lemma C10_REMAP_within_palette_witness :
  elem_of (acPalette !!! 0%nat) (cells (printWordle sWordleFrame0)) /\
  elem_of (acPalette !!! 0%nat) acPalette.
Proof.
  assert (H1 : elem_of (acPalette !!! 0%nat) (cells (printWordle sWordleFrame0))).
  { rewrite printWordle_silence. apply elem_of_replicate.
    split; [reflexivity | lia]. }
  split; [exact H1 |].
  exact (proj2 (proj2 (proj2 (proj2 C10_REMAP_within_palette)))
           sWordleFrame0 (acPalette !!! 0%nat) H1).
Defined.

(** * Further properties of the code *)

(** X1.  Whatever the reads deliver, the loop renders one grid of 30 cells
    per successful read, stops at the first failed read, which it reports
    once and does not retry, and otherwise runs all [n] iterations. *)
Theorem X1_loop_stops_at_first_failure
    (log10 : double -> double) (fftw : list double -> nat -> fftw_complex)
    (reads : nat -> option (list float)) (n : nat) :
  forall idx frame,
  let tr := fst (capture_loop log10 fftw reads n idx frame) in
  (renders tr <= n)%nat /\
  (reports tr <= 1)%nat /\
  (forall i, (idx <= i < idx + renders tr)%nat -> is_Some (reads i)) /\
  (reports tr = 0%nat -> renders tr = n) /\
  (reports tr = 1%nat ->
     (renders tr < n)%nat /\ reads (idx + renders tr)%nat = None) /\
  reads_attempted tr = (renders tr + reports tr)%nat /\
  executes tr = renders tr /\
  length (cells tr) = (30 * renders tr)%nat.
Proof. exact (capture_loop_counts log10 fftw reads n). Qed.

(** X2.  On every path through [main] the resources released are exactly
    the resources acquired, in the same order; the exit status is 1 exactly
    when the arguments are missing or the stream cannot be opened, and then
    nothing was acquired, read, transformed or rendered. *)
Theorem X2_main_resource_balance
    (log10 : double -> double) (fftw : list double -> nat -> fftw_complex)
    (reads : nat -> option (list float)) (n : nat) (argc : Z) (stream_ok : bool) :
  let tr := fst (main_reads log10 fftw reads n argc stream_ok) in
  let status := snd (main_reads log10 fftw reads n argc stream_ok) in
  releases tr = acquisitions tr /\
  (status = 1 <-> (argc < 2 \/ stream_ok = false)) /\
  (status = 0 <-> (2 <= argc /\ stream_ok = true)) /\
  (status = 1 ->
     acquisitions tr = [] /\ reads_attempted tr = 0%nat /\
     executes tr = 0%nat /\ renders tr = 0%nat) /\
  (status = 0 -> acquisitions tr = [psStream; psFFTWOutput; psFFTWPlan]).
Proof.
  intros tr status. unfold tr, status, main_reads.
  destruct (Z.ltb_spec argc 2) as [Hlt | Hge].
  - cbn [fst snd].
    repeat split; intros; try reflexivity; try discriminate;
      intuition (discriminate || lia).
  - destruct stream_ok; cbn [negb].
    + pose proof (capture_loop_resources log10 fftw reads n 0 sWordleFrame0)
        as [Hacq Hrel].
      destruct (capture_loop _ _ _ _ _ _) as [loop_tr final]. cbn [fst snd] in *.
      rewrite !acquisitions_app, !releases_app, Hacq, Hrel.
      repeat split; intros; try reflexivity; try discriminate;
        intuition (discriminate || lia).
    + cbn [fst snd].
      repeat split; intros; try reflexivity; try discriminate;
        intuition (discriminate || lia).
Qed.

(** X3.  Whatever [log10] and the transform return (negative values,
    infinities, NaN), a frame whose amplitudes are neither negative nor NaN
    stays so through every cycle of the loop and keeps its five entries; in
    particular the frame of a run, which starts at zero, never holds a
    negative value or a NaN. *)
Theorem X3_frame_stays_nonnegative
    (log10 : double -> double) (fftw : list double -> nat -> fftw_complex)
    (reads : nat -> option (list float)) (n : nat) :
  forall idx frame,
  length (afAmplitudes frame) = Z.to_nat WORDLE_COLUMNS ->
  Forall nonneg (afAmplitudes frame) ->
  let final := snd (capture_loop log10 fftw reads n idx frame) in
  length (afAmplitudes final) = Z.to_nat WORDLE_COLUMNS /\
  Forall nonneg (afAmplitudes final) /\
  Forall (fun a => is_nan a = false) (afAmplitudes final).
Proof.
  induction n as [| n IH]; intros idx frame Hlen Hf; cbn [capture_loop].
  - cbn [snd]. split; [exact Hlen |]. split; [exact Hf |].
    eapply Forall_impl; [exact Hf |]. intros a. apply nonneg_not_nan.
  - destruct (reads idx) as [buf |].
    + specialize (IH (S idx)
        (populate log10 (fftw (map double_of_float buf)) frame)
        (populate_length log10 _ frame Hlen)
        (populate_nonneg log10 _ frame Hf)).
      cbn zeta in IH.
      destruct (capture_loop _ _ _ n (S idx) _) as [tr final]. exact IH.
    + cbn [snd]. split; [exact Hlen |]. split; [exact Hf |].
      eapply Forall_impl; [exact Hf |]. intros a. apply nonneg_not_nan.
Qed.

Lemma X3_frame_stays_nonnegative_witness :
  length (afAmplitudes sWordleFrame0) = Z.to_nat WORDLE_COLUMNS /\
  Forall nonneg (afAmplitudes sWordleFrame0) /\
  let final :=
    snd (capture_loop log10_coarse dft_direct (reads_then_fail 2)
           (Z.to_nat ui32NumReads) 0 sWordleFrame0) in
  length (afAmplitudes final) = Z.to_nat WORDLE_COLUMNS /\
  Forall nonneg (afAmplitudes final) /\
  Forall (fun a => is_nan a = false) (afAmplitudes final).
Proof.
  assert (H1 : length (afAmplitudes sWordleFrame0) = Z.to_nat WORDLE_COLUMNS)
    by reflexivity.
  assert (H2 : Forall nonneg (afAmplitudes sWordleFrame0))
    by (repeat constructor).
  split; [exact H1 |]. split; [exact H2 |].
  exact (X3_frame_stays_nonnegative log10_coarse dft_direct (reads_then_fail 2)
           (Z.to_nat ui32NumReads) 0 sWordleFrame0 H1 H2).
Defined.

(** X4.  When the new magnitude does not exceed the decayed state (as in
    silence, where it is minus infinity), the state becomes exactly
    [state * 0.9f]; this never raises a non-negative state, and it strictly
    lowers every finite state of at least 10 * 2^-149. *)
Theorem X4_decay_when_quieter (s new : float) :
  F32.valid s = true -> F32.valid new = true -> nonneg s ->
  SFleb new (F32.mul s SMOOTHING) = true ->
  smooth s new = F32.mul s SMOOTHING /\
  SFleb (smooth s new) s = true /\
  (SFleb (S754_finite false 10 (-149)) s = true ->
   SFltb s (S754_infinity false) = true ->
   SFltb (smooth s new) s = true).
Proof.
  intros Hs Hnew Hnn Hle.
  assert (Heq : smooth s new = F32.mul s SMOOTHING).
  { rewrite smooth_eq by exact Hnew. unfold fmax. rewrite Hle. reflexivity. }
  rewrite Heq. split; [reflexivity |]. split.
  - apply mul_SMOOTHING_le; [exact Hs | exact Hnn |].
    apply SFleb_refl, nonneg_not_nan, Hnn.
  - intros Hten Hfin.
    destruct (nonneg_cases s Hnn) as [[ss ->] | [-> | (ms & es & ->)]].
    + discriminate Hten.
    + discriminate Hfin.
    + apply decay_strict; assumption.
Qed.

Lemma X4_decay_when_quieter_witness :
  F32.valid (F32.of_int 3) = true /\
  F32.valid (S754_infinity true) = true /\
  nonneg (F32.of_int 3) /\
  SFleb (S754_infinity true) (F32.mul (F32.of_int 3) SMOOTHING) = true /\
  smooth (F32.of_int 3) (S754_infinity true) = F32.mul (F32.of_int 3) SMOOTHING /\
  SFleb (smooth (F32.of_int 3) (S754_infinity true)) (F32.of_int 3) = true /\
  (SFleb (S754_finite false 10 (-149)) (F32.of_int 3) = true ->
   SFltb (F32.of_int 3) (S754_infinity false) = true ->
   SFltb (smooth (F32.of_int 3) (S754_infinity true)) (F32.of_int 3) = true).
Proof.
  assert (H1 : F32.valid (F32.of_int 3) = true) by reflexivity.
  assert (H2 : F32.valid (S754_infinity true) = true) by reflexivity.
  assert (H3 : nonneg (F32.of_int 3)) by reflexivity.
  assert (H4 : SFleb (S754_infinity true) (F32.mul (F32.of_int 3) SMOOTHING) = true)
    by reflexivity.
  split; [exact H1 |]. split; [exact H2 |]. split; [exact H3 |].
  split; [exact H4 |].
  exact (X4_decay_when_quieter (F32.of_int 3) (S754_infinity true) H1 H2 H3 H4).
Defined.

(** X5.  [printWordle] writes the 30 cells row by row, five to a row; the
    bottom row is attenuated by exactly 1, so its cell in a column shows
    [REMAP] of the stored amplitude itself; and for an amplitude [>= 0] no
    row of the column shows a higher palette index than the bottom row. *)
Theorem X5_bottom_row_shows_amplitude (frame : WORDLE_FRAME) (c : nat) :
  (c < Z.to_nat WORDLE_COLUMNS)%nat ->
  F32.valid (afAmplitudes frame !!! c) = true ->
  length (cells (printWordle frame)) = 30%nat /\
  (forall r, (r < Z.to_nat WORDLE_ROWS)%nat ->
     cells (printWordle frame) !! (5 * r + c)%nat
     = Some (acPalette !!! cell_index frame r c)) /\
  cells (printWordle frame) !! (25 + c)%nat
  = Some (acPalette !!! REMAP (afAmplitudes frame !!! c)) /\
  (nonneg (afAmplitudes frame !!! c) ->
   forall r, (r < Z.to_nat WORDLE_ROWS)%nat ->
     (cell_index frame r c <= REMAP (afAmplitudes frame !!! c))%nat).
Proof.
  change (Z.to_nat WORDLE_COLUMNS) with 5%nat.
  change (Z.to_nat WORDLE_ROWS) with 6%nat.
  intros Hc Hv. rewrite cells_printWordle.
  split; [reflexivity |]. split; [| split].
  - intros r Hr. apply grid_lookup; assumption.
  - rewrite <- (cell_index_bottom frame c Hv).
    apply (grid_lookup frame 5 c); [lia | exact Hc].
  - intros Hnn r Hr. rewrite <- (cell_index_bottom frame c Hv).
    unfold cell_index. apply REMAP_mono.
    apply attenuated_le; [exact Hnn | lia | vm_compute; lia].
Qed.

Lemma X5_bottom_row_shows_amplitude_witness :
  let frame := {| afAmplitudes := replicate 5 (F32.of_int 3) |} in
  (2 < Z.to_nat WORDLE_COLUMNS)%nat /\
  F32.valid (afAmplitudes frame !!! 2%nat) = true /\
  length (cells (printWordle frame)) = 30%nat /\
  (forall r, (r < Z.to_nat WORDLE_ROWS)%nat ->
     cells (printWordle frame) !! (5 * r + 2)%nat
     = Some (acPalette !!! cell_index frame r 2)) /\
  cells (printWordle frame) !! (25 + 2)%nat
  = Some (acPalette !!! REMAP (afAmplitudes frame !!! 2%nat)) /\
  (nonneg (afAmplitudes frame !!! 2%nat) ->
   forall r, (r < Z.to_nat WORDLE_ROWS)%nat ->
     (cell_index frame r 2 <= REMAP (afAmplitudes frame !!! 2%nat))%nat).
Proof.
  intros frame.
  assert (H1 : (2 < Z.to_nat WORDLE_COLUMNS)%nat) by (vm_compute; lia).
  assert (H2 : F32.valid (afAmplitudes frame !!! 2%nat) = true) by reflexivity.
  split; [exact H1 |]. split; [exact H2 |].
  exact (X5_bottom_row_shows_amplitude frame 2 H1 H2).
Defined.

(** X6.  A grid shows the first palette entry, the one meant as the black
    square, in every cell exactly when every amplitude of the frame is below
    the 0.5 bracket. *)
Theorem X6_grid_black_iff_quiet (frame : WORDLE_FRAME) :
  length (afAmplitudes frame) = Z.to_nat WORDLE_COLUMNS ->
  Forall (fun a => F32.valid a = true) (afAmplitudes frame) ->
  cells (printWordle frame) = replicate 30 (acPalette !!! 0%nat) <->
  Forall (fun a => SFltb a (afAmplitudeBrackets !!! 1%nat) = true)
         (afAmplitudes frame).
Proof.
  change (Z.to_nat WORDLE_COLUMNS) with 5%nat. float_lookups.
  intros Hlen Hval. rewrite cells_printWordle.
  assert (Hcol : forall c, (c < 5)%nat ->
            afAmplitudes frame !! c = Some (afAmplitudes frame !!! c) /\
            F32.valid (afAmplitudes frame !!! c) = true).
  { intros c Hc.
    destruct (lookup_lt_is_Some_2 (afAmplitudes frame) c ltac:(lia)) as [a Ha].
    rewrite (list_lookup_total_correct _ _ _ Ha).
    split; [exact Ha |]. exact (proj1 (Forall_lookup _ _) Hval c a Ha). }
  split.
  - intros Hgrid. apply Forall_lookup. intros c a Ha.
    assert (Hc : (c < 5)%nat) by (rewrite <- Hlen; eapply lookup_lt_Some, Ha).
    destruct (Hcol c Hc) as [Ha' Hv].
    pose proof (eq_trans (eq_sym Ha) Ha') as Heq. injection Heq as ->.
    apply REMAP_zero_iff. rewrite <- (cell_index_bottom frame c Hv).
    apply palette_black_inj; [apply REMAP_bound |].
    pose proof (grid_lookup frame 5 c ltac:(lia) Hc) as Hg.
    rewrite Hgrid, lookup_replicate_2 in Hg by lia.
    injection Hg as Hg. symmetry. exact Hg.
  - intros Hq. apply list_eq. intros i.
    destruct (Nat.lt_ge_cases i 30) as [Hi | Hi].
    + rewrite lookup_replicate_2 by exact Hi.
      replace i with (5 * (i / 5) + i mod 5)%nat at 1
        by (symmetry; apply Nat.div_mod_eq).
      assert (Hr : (i / 5 < 6)%nat) by (apply Nat.Div0.div_lt_upper_bound; lia).
      assert (Hc : (i mod 5 < 5)%nat) by (apply Nat.mod_upper_bound; lia).
      rewrite grid_lookup by assumption.
      destruct (Hcol _ Hc) as [Ha Hv].
      rewrite (proj2 (column_black_iff frame _ Hv)); [reflexivity | | exact Hr].
      exact (proj1 (Forall_lookup _ _) Hq _ _ Ha).
    + rewrite !lookup_ge_None_2; [reflexivity | |].
      * rewrite length_replicate. exact Hi.
      * change (length (grid frame)) with 30%nat. exact Hi.
Qed.

Lemma X6_grid_black_iff_quiet_witness :
  let frame := {| afAmplitudes := replicate 5 (F32.div (F32.of_int 1) (F32.of_int 4)) |} in
  length (afAmplitudes frame) = Z.to_nat WORDLE_COLUMNS /\
  Forall (fun a => F32.valid a = true) (afAmplitudes frame) /\
  (cells (printWordle frame) = replicate 30 (acPalette !!! 0%nat) <->
   Forall (fun a => SFltb a (afAmplitudeBrackets !!! 1%nat) = true)
          (afAmplitudes frame)).
Proof.
  intros frame.
  assert (H1 : length (afAmplitudes frame) = Z.to_nat WORDLE_COLUMNS)
    by reflexivity.
  assert (H2 : Forall (fun a => F32.valid a = true) (afAmplitudes frame))
    by (repeat constructor).
  split; [exact H1 |]. split; [exact H2 |].
  exact (X6_grid_black_iff_quiet frame H1 H2).
Defined.

(** X7.  Of two stored amplitudes the larger one never shows a lower
    palette index, in any row: columns grow with the amplitude. *)
Theorem X7_louder_is_never_shorter (a b : float) (r : nat) :
  (r < Z.to_nat WORDLE_ROWS)%nat ->
  F32.valid a = true -> F32.valid b = true -> SFleb a b = true ->
  (REMAP (F32.mul (fAttenuation r) a) <= REMAP (F32.mul (fAttenuation r) b))%nat.
Proof.
  change (Z.to_nat WORDLE_ROWS) with 6%nat. intros Hr Ha Hb Hle.
  destruct (SFleb (S754_zero false) a) eqn:Hnn.
  - apply REMAP_mono, attenuated_mono; assumption.
  - rewrite attenuated_negative; [lia | exact Hr | | exact Hnn].
    destruct a; try reflexivity. discriminate Hle.
Qed.

Lemma X7_louder_is_never_shorter_witness :
  (3 < Z.to_nat WORDLE_ROWS)%nat /\
  F32.valid (F32.of_int 1) = true /\ F32.valid (F32.of_int 3) = true /\
  SFleb (F32.of_int 1) (F32.of_int 3) = true /\
  (REMAP (F32.mul (fAttenuation 3) (F32.of_int 1))
   <= REMAP (F32.mul (fAttenuation 3) (F32.of_int 3)))%nat.
Proof.
  assert (H1 : (3 < Z.to_nat WORDLE_ROWS)%nat) by (vm_compute; lia).
  assert (H2 : F32.valid (F32.of_int 1) = true) by reflexivity.
  assert (H3 : F32.valid (F32.of_int 3) = true) by reflexivity.
  assert (H4 : SFleb (F32.of_int 1) (F32.of_int 3) = true) by reflexivity.
  split; [exact H1 |]. split; [exact H2 |]. split; [exact H3 |].
  split; [exact H4 |].
  exact (X7_louder_is_never_shorter (F32.of_int 1) (F32.of_int 3) 3 H1 H2 H3 H4).
Defined.

(** X8.  A NaN amplitude fails both bracket comparisons of [REMAP], so in
    every row its column gets palette index 2, and the character written
    for it is the last entry of [acPalette]. *)
Theorem X8_nan_amplitude_takes_last_entry (frame : WORDLE_FRAME) (r c : nat) :
  is_nan (afAmplitudes frame !!! c) = true ->
  cell_index frame r c = 2%nat /\
  ((r < Z.to_nat WORDLE_ROWS)%nat -> (c < Z.to_nat WORDLE_COLUMNS)%nat ->
   cells (printWordle frame) !! (5 * r + c)%nat = Some (acPalette !!! 2%nat)).
Proof.
  intros Hn.
  assert (Hidx : cell_index frame r c = 2%nat).
  { unfold cell_index. float_lookups.
    destruct (afAmplitudes frame !!! c); try discriminate Hn.
    assert (Hm : F32.mul (fAttenuation r) S754_nan = S754_nan)
      by (destruct (fAttenuation r); reflexivity).
    rewrite Hm. reflexivity. }
  split; [exact Hidx |]. intros Hr Hc.
  rewrite cells_printWordle, grid_lookup, Hidx by assumption. reflexivity.
Qed.

Lemma X8_nan_amplitude_takes_last_entry_witness :
  let frame := {| afAmplitudes := replicate 5 S754_nan |} in
  is_nan (afAmplitudes frame !!! 1%nat) = true /\
  cell_index frame 0 1 = 2%nat /\
  ((0 < Z.to_nat WORDLE_ROWS)%nat -> (1 < Z.to_nat WORDLE_COLUMNS)%nat ->
   cells (printWordle frame) !! (5 * 0 + 1)%nat = Some (acPalette !!! 2%nat)).
Proof.
  intros frame.
  assert (H1 : is_nan (afAmplitudes frame !!! 1%nat) = true) by reflexivity.
  split; [exact H1 |].
  exact (X8_nan_amplitude_takes_last_entry frame 0 1 H1).
Defined.

(** X9.  The smoothing assignment ignores a NaN reading (the state just
    decays), replaces a NaN state by the reading, and otherwise yields an
    upper bound of the decayed state and the reading; a reading above the
    decayed state is taken over at once, without smoothing. *)
Theorem X9_smoothing_on_nan_and_attack (prev new : float) :
  F32.valid new = true ->
  (is_nan new = true -> smooth prev new = F32.mul prev SMOOTHING) /\
  (is_nan prev = true -> smooth prev new = new) /\
  (is_nan prev = false -> is_nan new = false ->
     SFleb (F32.mul prev SMOOTHING) (smooth prev new) = true /\
     SFleb new (smooth prev new) = true /\
     (SFltb (F32.mul prev SMOOTHING) new = true -> smooth prev new = new)).
Proof.
  intros Hv. rewrite smooth_eq by exact Hv. split; [| split].
  - intros Hn. unfold fmax. rewrite Hn, orb_true_r. reflexivity.
  - intros Hp. destruct prev; try discriminate Hp.
    rewrite SMOOTHING_eq. unfold fmax.
    destruct new; reflexivity.
  - intros Hp Hn. pose proof (mul_SMOOTHING_not_nan prev Hp) as Hx.
    destruct (fmax_spec (F32.mul prev SMOOTHING) new) as [_ Hub].
    destruct (Hub Hx Hn) as [H1 H2].
    split; [exact H1 |]. split; [exact H2 |].
    intros Hlt. unfold fmax.
    rewrite (SFltb_not_leb _ _ Hlt), Hn. reflexivity.
Qed.

Lemma X9_smoothing_on_nan_and_attack_witness :
  let prev := F32.of_int 1 in
  let new := F32.of_int 3 in
  F32.valid new = true /\
  (is_nan new = true -> smooth prev new = F32.mul prev SMOOTHING) /\
  (is_nan prev = true -> smooth prev new = new) /\
  (is_nan prev = false -> is_nan new = false ->
     SFleb (F32.mul prev SMOOTHING) (smooth prev new) = true /\
     SFleb new (smooth prev new) = true /\
     (SFltb (F32.mul prev SMOOTHING) new = true -> smooth prev new = new)).
Proof.
  intros prev new.
  assert (H1 : F32.valid new = true) by reflexivity.
  split; [exact H1 |].
  exact (X9_smoothing_on_nan_and_attack prev new H1).
Defined.

(** X10.  Copying the [float] samples into the [double] input buffer loses
    nothing: converting back gives the samples again, the buffer keeps its
    length, and two samples compare after the copy as they did before. *)
Theorem X10_copy_to_double_is_lossless (afPulseBuffer : list float) :
  Forall (fun x => F32.valid x = true) afPulseBuffer ->
  map float_of_double (map double_of_float afPulseBuffer) = afPulseBuffer /\
  length (map double_of_float afPulseBuffer) = length afPulseBuffer /\
  (forall i j x y,
     afPulseBuffer !! i = Some x -> afPulseBuffer !! j = Some y ->
     SFcompare (double_of_float x) (double_of_float y) = SFcompare x y) /\
  (forall i x,
     afPulseBuffer !! i = Some x ->
     is_nan (double_of_float x) = is_nan x /\
     (double_of_float x = S754_zero false <-> x = S754_zero false)).
Proof.
  intros Hv. split; [| split; [| split]].
  - induction Hv as [| x buf Hx _ IH]; [reflexivity |].
    cbn [map]. rewrite float_of_double_of_float by exact Hx. rewrite IH.
    reflexivity.
  - apply length_map.
  - intros i j x y Hi Hj.
    apply double_of_float_compare;
      [exact (proj1 (Forall_lookup _ _) Hv i x Hi)
      | exact (proj1 (Forall_lookup _ _) Hv j y Hj)].
  - intros i x Hi. pose proof (proj1 (Forall_lookup _ _) Hv i x Hi) as Hx.
    split; [apply is_nan_double_of_float; exact Hx |].
    split.
    + intros Hz. rewrite <- (float_of_double_of_float x Hx), Hz. reflexivity.
    + intros ->. reflexivity.
Qed.

Lemma X10_copy_to_double_is_lossless_witness :
  Forall (fun x => F32.valid x = true) [F32.of_int 3; SMOOTHING] /\
  map float_of_double (map double_of_float [F32.of_int 3; SMOOTHING])
  = [F32.of_int 3; SMOOTHING].
Proof.
  assert (H1 : Forall (fun x => F32.valid x = true) [F32.of_int 3; SMOOTHING])
    by (repeat constructor).
  split; [exact H1 |].
  exact (proj1 (X10_copy_to_double_is_lossless [F32.of_int 3; SMOOTHING] H1)).
Defined.

(** X11.  A run depends on the transform only through the real parts of
    its output entries below index [BUFSIZE / 2]: two transforms that agree
    there give the same calls, the same exit status and the same frames. *)
Theorem X11_run_reads_real_parts_in_range
    (log10 : double -> double)
    (fftw fftw' : list double -> nat -> fftw_complex)
    (reads : nat -> option (list float)) (argc : Z) (stream_ok : bool) :
  (forall buf k, (k < Z.to_nat (BUFSIZE / 2))%nat ->
     fst (fftw buf k) = fst (fftw' buf k)) ->
  main log10 fftw reads argc stream_ok = main log10 fftw' reads argc stream_ok /\
  (forall out out' frame,
     (forall k, (k < Z.to_nat (BUFSIZE / 2))%nat -> fst (out k) = fst (out' k)) ->
     populate log10 out frame = populate log10 out' frame) /\
  (forall n idx frame,
     capture_loop log10 fftw reads n idx frame
     = capture_loop log10 fftw' reads n idx frame).
Proof.
  intros H. split; [| split].
  - unfold main, main_reads.
    rewrite (capture_loop_local log10 fftw fftw' reads _ H). reflexivity.
  - intros out out' frame Ho. apply populate_local. exact Ho.
  - intros n. apply capture_loop_local. exact H.
Qed.

Lemma X11_run_reads_real_parts_in_range_witness :
  let fftw' := fun buf k => (fst (dft_direct buf k), S754_nan) in
  (forall buf k, (k < Z.to_nat (BUFSIZE / 2))%nat ->
     fst (dft_direct buf k) = fst (fftw' buf k)) /\
  main log10_coarse dft_direct (reads_then_fail 2) 2 true
  = main log10_coarse fftw' (reads_then_fail 2) 2 true.
Proof.
  intros fftw'.
  assert (H1 : forall buf k, (k < Z.to_nat (BUFSIZE / 2))%nat ->
                 fst (dft_direct buf k) = fst (fftw' buf k))
    by (intros buf k _; reflexivity).
  split; [exact H1 |].
  exact (proj1 (X11_run_reads_real_parts_in_range log10_coarse dft_direct fftw'
                  (reads_then_fail 2) 2 true H1)).
Defined.

(** X12.  A run that gets past its start-up checks reads at most 430
    windows and renders at most 430 grids of 30 cells each; it renders all
    430 exactly when each of the first 430 reads succeeds, and it reports a
    failure exactly when one of them fails; either way it exits with
    status 0. *)
Theorem X12_run_is_bounded
    (log10 : double -> double) (fftw : list double -> nat -> fftw_complex)
    (reads : nat -> option (list float)) (argc : Z) :
  2 <= argc ->
  let tr := fst (main log10 fftw reads argc true) in
  (reads_attempted tr <= 430)%nat /\
  (renders tr <= 430)%nat /\
  executes tr = renders tr /\
  length (cells tr) = (30 * renders tr)%nat /\
  (renders tr = 430%nat <-> forall i, (i < 430)%nat -> is_Some (reads i)) /\
  (reports tr = 1%nat <-> exists i, (i < 430)%nat /\ reads i = None) /\
  snd (main log10 fftw reads argc true) = 0.
Proof.
  intros Hargc. unfold main, main_reads.
  replace (argc <? 2) with false by (symmetry; apply Z.ltb_ge; lia).
  cbn [negb]. change (Z.to_nat ui32NumReads) with 430%nat.
  pose proof (capture_loop_counts log10 fftw reads 430 0 sWordleFrame0)
    as (H1 & H2 & H3 & H4 & H5 & H6 & H7 & H8).
  pose proof (capture_loop_complete log10 fftw reads 430 0 sWordleFrame0)
    as Hall.
  cbn zeta in *.
  destruct (capture_loop _ _ _ _ _ _) as [tr final]. cbn [fst snd] in *.
  rewrite !reads_attempted_app, !renders_app, !executes_app, !reports_app,
          !cells_app, !length_app.
  change (reads_attempted [_; _; _; _]) with 0%nat.
  change (reads_attempted [_; _; _]) with 0%nat.
  change (renders [_; _; _; _]) with 0%nat.
  change (renders [_; _; _]) with 0%nat.
  change (executes [_; _; _; _]) with 0%nat.
  change (executes [_; _; _]) with 0%nat.
  change (reports [_; _; _; _]) with 0%nat.
  change (reports [_; _; _]) with 0%nat.
  change (length (cells [_; _; _; _])) with 0%nat.
  change (length (cells [_; _; _])) with 0%nat.
  cbn [Nat.add]. rewrite !Nat.add_0_r.
  split; [lia |]. split; [lia |]. split; [lia |]. split; [lia |].
  split; [| split; [| reflexivity]].
  - split.
    + intros Hr i Hi. apply H3. lia.
    + intros Hok. apply Hall. intros i Hi. apply Hok. lia.
  - split.
    + intros Hrep. destruct (H5 Hrep) as [Hlt Hnone].
      exists (renders tr). split; [lia | exact Hnone].
    + intros (i & Hi & Hnone).
      assert (Hne : reports tr <> 0%nat).
      { intros Hz. specialize (H4 Hz).
        destruct (H3 i ltac:(lia)) as [buf Hb]. congruence. }
      lia.
Qed.

Lemma X12_run_is_bounded_witness :
  2 <= 2 /\
  (renders (fst (main log10_coarse dft_direct (reads_then_fail 2) 2 true))
   <= 430)%nat.
Proof.
  assert (H1 : 2 <= 2) by lia.
  split; [exact H1 |].
  exact (proj1 (proj2 (X12_run_is_bounded log10_coarse dft_direct
                         (reads_then_fail 2) 2 H1))).
Defined.

(** X13.  Where no reading exceeds the decayed state (in silence, say), the
    next grid is nowhere brighter than the current one: every cell keeps its
    palette index or drops to a lower one. *)
Theorem X13_quiet_cycle_never_brightens
    (log10 : double -> double) (out : nat -> fftw_complex)
    (frame : WORDLE_FRAME) :
  length (afAmplitudes frame) = Z.to_nat WORDLE_COLUMNS ->
  Forall (fun a => F32.valid a = true) (afAmplitudes frame) ->
  Forall nonneg (afAmplitudes frame) ->
  (forall c, (c < Z.to_nat WORDLE_COLUMNS)%nat ->
     SFleb (fAmplitude log10 out c)
           (F32.mul (afAmplitudes frame !!! c) SMOOTHING) = true) ->
  forall r c, (r < Z.to_nat WORDLE_ROWS)%nat -> (c < Z.to_nat WORDLE_COLUMNS)%nat ->
    (cell_index (populate log10 out frame) r c <= cell_index frame r c)%nat.
Proof.
  change (Z.to_nat WORDLE_ROWS) with 6%nat. float_lookups.
  intros Hlen Hval Hnn Hquiet r c Hr Hc.
  pose proof (populate_lookup log10 out frame c Hlen Hc) as Hnew.
  unfold cell_index. float_lookups.
  rewrite (list_lookup_total_correct _ _ _ Hnew).
  change (Z.to_nat WORDLE_COLUMNS) with 5%nat in *.
  destruct (lookup_lt_is_Some_2 (afAmplitudes frame) c ltac:(lia)) as [a Ha].
  pose proof (list_lookup_total_correct _ _ _ Ha) as Hat.
  float_lookups. specialize (Hquiet c Hc). rewrite Hat in *.
  pose proof (proj1 (Forall_lookup _ _) Hval c a Ha) as Hva.
  pose proof (proj1 (Forall_lookup _ _) Hnn c a Ha) as Hna.
  cbn beta in Hva, Hna.
  rewrite smooth_eq by apply float_of_double_valid.
  unfold fmax. rewrite Hquiet. cbn [orb].
  apply REMAP_mono, attenuated_mono;
    [exact Hr | apply F32_mul_SMOOTHING_valid | exact Hva | |].
  - apply mul_SMOOTHING_nonneg. exact Hna.
  - apply mul_SMOOTHING_le; [exact Hva | exact Hna |].
    apply SFleb_refl, nonneg_not_nan, Hna.
Qed.

Lemma X13_quiet_cycle_never_brightens_witness :
  let frame := {| afAmplitudes := replicate 5 (F32.of_int 3) |} in
  length (afAmplitudes frame) = Z.to_nat WORDLE_COLUMNS /\
  Forall (fun a => F32.valid a = true) (afAmplitudes frame) /\
  Forall nonneg (afAmplitudes frame) /\
  (forall c, (c < Z.to_nat WORDLE_COLUMNS)%nat ->
     SFleb (fAmplitude log10_coarse silent_spectrum c)
           (F32.mul (afAmplitudes frame !!! c) SMOOTHING) = true) /\
  (cell_index (populate log10_coarse silent_spectrum frame) 5 0
   <= cell_index frame 5 0)%nat.
Proof.
  intros frame.
  assert (H1 : length (afAmplitudes frame) = Z.to_nat WORDLE_COLUMNS)
    by reflexivity.
  assert (H2 : Forall (fun a => F32.valid a = true) (afAmplitudes frame))
    by (repeat constructor).
  assert (H3 : Forall nonneg (afAmplitudes frame))
    by (repeat constructor).
  assert (H4 : forall c, (c < Z.to_nat WORDLE_COLUMNS)%nat ->
     SFleb (fAmplitude log10_coarse silent_spectrum c)
           (F32.mul (afAmplitudes frame !!! c) SMOOTHING) = true).
  { intros c Hc.
    do 5 (destruct c as [| c]; [vm_compute; reflexivity |]).
    exfalso. revert Hc. vm_compute. lia. }
  assert (H5 : (5 < Z.to_nat WORDLE_ROWS)%nat) by (vm_compute; lia).
  assert (H6 : (0 < Z.to_nat WORDLE_COLUMNS)%nat) by (vm_compute; lia).
  split; [exact H1 |]. split; [exact H2 |]. split; [exact H3 |].
  split; [exact H4 |].
  exact (X13_quiet_cycle_never_brightens log10_coarse silent_spectrum frame
           H1 H2 H3 H4 5 0 H5 H6).
Defined.
